(** * hasher: a shallow embedding of [new.py]

    The script hashes files (SHA-256, SHA-1 or MD5), recursing into
    directories, and appends one record per hashed file to a log.  This
    development embeds the three functions of [new.py] ([hash_file],
    [collect_files], [main]) together with the parts of the Python
    runtime they call: [hashlib]'s incremental digest objects, [pathlib]'s
    pure paths and directory walk, the file system, and the two output
    streams.

    The file system is a finite tree of regular files, directories and
    special entries, without symbolic links, and it does not change while
    the script runs; a regular file may refuse to be opened or hold a byte
    that cannot be read.  Strings are byte strings. *)

From Stdlib Require Import ZArith List String Ascii Strings.Byte Lia.
From Stdlib Require Import Numbers.DecimalString.
From stdpp Require Import base option list strings gmap.

Open Scope Z_scope.

(** ** 32-bit words

    [hashlib]'s algorithms work on 32-bit unsigned words; a word is a [Z]
    in the range [0 .. 2^32 - 1] and every operation wraps explicitly. *)
Module Word32.

Definition mask : Z := 0xffffffff.

Definition wrap (x : Z) : Z := Z.land x mask.

Definition add (a b : Z) : Z := wrap (a + b).

Definition lnot (a : Z) : Z := Z.lxor a mask.

Definition rotl (x n : Z) : Z :=
  wrap (Z.lor (Z.shiftl x n) (Z.shiftr x (32 - n))).

Definition rotr (x n : Z) : Z := rotl x (32 - n).

Definition shr (x n : Z) : Z := Z.shiftr x n.

Definition sum (l : list Z) : Z := fold_left add l 0.

Definition byte_val (b : byte) : Z := Z.of_N (Byte.to_N b).

Definition byte_of (z : Z) : byte :=
  match Byte.of_N (Z.to_N (Z.land z 0xff)) with
  | Some b => b
  | None => x00
  end.

(** Four bytes, most significant first, as one word. *)
Definition of_be (bs : list byte) : Z :=
  fold_left (fun acc b => Z.lor (Z.shiftl acc 8) (byte_val b)) bs 0.

Definition of_le (bs : list byte) : Z := of_be (rev bs).

(** The [n] low bytes of [z], most significant first. *)
Fixpoint to_be (n : nat) (z : Z) : list byte :=
  match n with
  | O => []
  | S k => to_be k (Z.shiftr z 8) ++ [byte_of z]
  end.

Definition to_le (n : nat) (z : Z) : list byte := rev (to_be n z).

(** A 64-byte block as sixteen words. *)
Fixpoint words (dec : list byte -> Z) (n : nat) (bs : list byte) : list Z :=
  match n with
  | O => []
  | S k => dec (take 4 bs) :: words dec k (drop 4 bs)
  end.

End Word32.

(** ** The three digest algorithms of [hashlib] used by [HASH_ALGOS] *)
Module Digest.
Import Word32.

(** What [hashlib] needs to know of a Merkle-Damgard algorithm with
    64-byte blocks: the initial chaining value, the compression
    function, the encoding of the message bit length in the padding and
    the encoding of the final chaining value. *)
Record algorithm := {
    alg_iv : list Z;
    alg_compress : list Z -> list byte -> list Z;
    alg_length : Z -> list byte;
    alg_output : list Z -> list byte
  }.

Definition block_size : nat := 64.

(** *** SHA-256 (FIPS 180-4) *)
Module Sha256.

(** The round constants and the initial chaining value are the first 32
    bits of the fractional parts of the cube roots of the first 64 primes
    and of the square roots of the first 8. *)
Definition is_prime (n : Z) : bool :=
  forallb (fun d => negb (n mod Z.of_nat d =? 0)) (seq 2 (Z.to_nat n - 2)).

Definition primes : list Z :=
  List.filter is_prime (map Z.of_nat (seq 2 310)).

(** The integer cube root, found bit by bit from the top. *)
Definition cube_root (n : Z) : Z :=
  fold_left (fun r b => let r' := r + 2 ^ Z.of_nat b in
                        if r' * r' * r' <=? n then r' else r)
            (rev (seq 0 40)) 0.

Definition K : list Z :=
  Eval vm_compute in map (fun p => wrap (cube_root (p * 2 ^ 96))) primes.

Definition iv : list Z :=
  Eval vm_compute in map (fun p => wrap (Z.sqrt (p * 2 ^ 64))) (take 8 primes).

Definition Ch (x y z : Z) : Z := Z.lxor (Z.land x y) (Z.land (lnot x) z).
Definition Maj (x y z : Z) : Z :=
      Z.lxor (Z.lxor (Z.land x y) (Z.land x z)) (Z.land y z).
Definition Sigma0 (x : Z) : Z := Z.lxor (Z.lxor (rotr x 2) (rotr x 13)) (rotr x 22).
Definition Sigma1 (x : Z) : Z := Z.lxor (Z.lxor (rotr x 6) (rotr x 11)) (rotr x 25).
Definition sigma0 (x : Z) : Z := Z.lxor (Z.lxor (rotr x 7) (rotr x 18)) (shr x 3).
Definition sigma1 (x : Z) : Z := Z.lxor (Z.lxor (rotr x 17) (rotr x 19)) (shr x 10).

(** The message schedule, newest word first: [rw] holds
    [W(t-1), W(t-2), ...]. *)
Fixpoint schedule (n : nat) (rw : list Z) : list Z :=
  match n with
  | O => rw
  | S k =>
      let w := sum [ sigma1 (nth 1 rw 0); nth 6 rw 0;
                     sigma0 (nth 14 rw 0); nth 15 rw 0 ] in
      schedule k (w :: rw)
  end.

Definition round (s : list Z) (kw : Z * Z) : list Z :=
  match s with
  | [a; b; c; d; e; f; g; h] =>
      let t1 := sum [h; Sigma1 e; Ch e f g; kw.1; kw.2] in
      let t2 := add (Sigma0 a) (Maj a b c) in
      [add t1 t2; a; b; c; add d t1; e; f; g]
  | _ => s
  end.

Definition compress (h : list Z) (block : list byte) : list Z :=
  let w := rev (schedule 48 (rev (words of_be 16 block))) in
  zip_with add h (fold_left round (zip K w) h).

Definition alg : algorithm :=
  {| alg_iv := iv;
     alg_compress := compress;
     alg_length := to_be 8;
     alg_output := fun h => mjoin (to_be 4 <$> h) |}.

End Sha256.

(** *** SHA-1 (FIPS 180-4) *)
Module Sha1.

Definition iv : list Z :=
  [ 0x67452301; 0xefcdab89; 0x98badcfe; 0x10325476; 0xc3d2e1f0 ].

Fixpoint schedule (n : nat) (rw : list Z) : list Z :=
  match n with
  | O => rw
  | S k =>
      let w := rotl (Z.lxor (Z.lxor (nth 2 rw 0) (nth 7 rw 0))
                            (Z.lxor (nth 13 rw 0) (nth 15 rw 0))) 1 in
      schedule k (w :: rw)
  end.

Definition f (t : nat) (b c d : Z) : Z :=
  if (t <? 20)%nat then Z.lor (Z.land b c) (Z.land (lnot b) d)
  else if (t <? 40)%nat then Z.lxor (Z.lxor b c) d
  else if (t <? 60)%nat then
    Z.lor (Z.lor (Z.land b c) (Z.land b d)) (Z.land c d)
  else Z.lxor (Z.lxor b c) d.

Definition k (t : nat) : Z :=
  if (t <? 20)%nat then 0x5a827999
  else if (t <? 40)%nat then 0x6ed9eba1
  else if (t <? 60)%nat then 0x8f1bbcdc
  else 0xca62c1d6.

Definition round (s : list Z) (tw : nat * Z) : list Z :=
  match s with
  | [a; b; c; d; e] =>
      let tmp := sum [rotl a 5; f tw.1 b c d; e; k tw.1; tw.2] in
      [tmp; a; rotl b 30; c; d]
  | _ => s
  end.

Definition compress (h : list Z) (block : list byte) : list Z :=
  let w := rev (schedule 64 (rev (words of_be 16 block))) in
  zip_with add h (fold_left round (zip (seq 0 80) w) h).

Definition alg : algorithm :=
  {| alg_iv := iv;
     alg_compress := compress;
     alg_length := to_be 8;
     alg_output := fun h => mjoin (to_be 4 <$> h) |}.

End Sha1.

(** *** MD5 (RFC 1321) *)
Module Md5.

(** [T i] is the integer part of [2^32 * abs (sin (i + 1))]. *)
Definition T : list Z :=
  [ 0xd76aa478; 0xe8c7b756; 0x242070db; 0xc1bdceee;
    0xf57c0faf; 0x4787c62a; 0xa8304613; 0xfd469501;
    0x698098d8; 0x8b44f7af; 0xffff5bb1; 0x895cd7be;
    0x6b901122; 0xfd987193; 0xa679438e; 0x49b40821;
    0xf61e2562; 0xc040b340; 0x265e5a51; 0xe9b6c7aa;
    0xd62f105d; 0x02441453; 0xd8a1e681; 0xe7d3fbc8;
    0x21e1cde6; 0xc33707d6; 0xf4d50d87; 0x455a14ed;
    0xa9e3e905; 0xfcefa3f8; 0x676f02d9; 0x8d2a4c8a;
    0xfffa3942; 0x8771f681; 0x6d9d6122; 0xfde5380c;
    0xa4beea44; 0x4bdecfa9; 0xf6bb4b60; 0xbebfbc70;
    0x289b7ec6; 0xeaa127fa; 0xd4ef3085; 0x04881d05;
    0xd9d4d039; 0xe6db99e5; 0x1fa27cf8; 0xc4ac5665;
    0xf4292244; 0x432aff97; 0xab9423a7; 0xfc93a039;
    0x655b59c3; 0x8f0ccc92; 0xffeff47d; 0x85845dd1;
    0x6fa87e4f; 0xfe2ce6e0; 0xa3014314; 0x4e0811a1;
    0xf7537e82; 0xbd3af235; 0x2ad7d2bb; 0xeb86d391 ].

Definition shifts : list Z :=
  [ 7; 12; 17; 22; 7; 12; 17; 22; 7; 12; 17; 22; 7; 12; 17; 22;
    5;  9; 14; 20; 5;  9; 14; 20; 5;  9; 14; 20; 5;  9; 14; 20;
    4; 11; 16; 23; 4; 11; 16; 23; 4; 11; 16; 23; 4; 11; 16; 23;
    6; 10; 15; 21; 6; 10; 15; 21; 6; 10; 15; 21; 6; 10; 15; 21 ].

Definition iv : list Z :=
  [ 0x67452301; 0xefcdab89; 0x98badcfe; 0x10325476 ].

Definition f (i : nat) (b c d : Z) : Z :=
  if (i <? 16)%nat then Z.lor (Z.land b c) (Z.land (lnot b) d)
  else if (i <? 32)%nat then Z.lor (Z.land d b) (Z.land (lnot d) c)
  else if (i <? 48)%nat then Z.lxor (Z.lxor b c) d
  else Z.lxor c (Z.lor b (lnot d)).

Definition g (i : nat) : nat :=
  if (i <? 16)%nat then i
  else if (i <? 32)%nat then ((5 * i + 1) mod 16)%nat
  else if (i <? 48)%nat then ((3 * i + 5) mod 16)%nat
  else ((7 * i) mod 16)%nat.

Definition round (m : list Z) (s : list Z) (i : nat) : list Z :=
  match s with
  | [a; b; c; d] =>
      let x := sum [a; f i b c d; nth i T 0; nth (g i) m 0] in
      [d; add b (rotl x (nth i shifts 0)); b; c]
  | _ => s
  end.

Definition compress (h : list Z) (block : list byte) : list Z :=
  let m := words of_le 16 block in
  zip_with add h (fold_left (round m) (seq 0 64) h).

Definition alg : algorithm :=
  {| alg_iv := iv;
     alg_compress := compress;
     alg_length := to_le 8;
     alg_output := fun h => mjoin (to_le 4 <$> h) |}.

End Md5.

(** An algorithm is steady at [n] when its chaining value keeps the
    length [n] and is written out as at least one byte. *)
Definition steady (a : algorithm) (n : nat) : Prop :=
  length (alg_iv a) = n
  ∧ (∀ st blk, length st = n → length (alg_compress a st blk) = n)
  ∧ (∀ st, length st = n → alg_output a st ≠ []).

(** *** The digest object

    A [hashlib] object holds the chaining value, the bytes of the last,
    incomplete block and the number of bytes fed so far. *)
Record hasher := {
  h_alg : algorithm;
  h_state : list Z;
  h_buffer : list byte;
  h_count : nat
}.

(** [hashlib.sha256()] and its siblings: a fresh object. *)
Definition new (a : algorithm) : hasher :=
  {| h_alg := a; h_state := alg_iv a; h_buffer := []; h_count := 0 |}.

(** Compress every complete block at the front of [data]; what is left
    (fewer than 64 bytes) is returned with the chaining value.  Each step
    consumes 64 bytes, so [length data] steps always suffice. *)
Fixpoint absorb (a : algorithm) (fuel : nat) (st : list Z) (data : list byte)
  : list Z * list byte :=
  match fuel with
  | O => (st, data)
  | S k =>
      if (length data <? block_size)%nat then (st, data)
      else absorb a k (alg_compress a st (take block_size data))
                  (drop block_size data)
  end.

(** The buffer of a digest object never holds a whole block. *)
Definition short (h : hasher) : Prop := (length (h_buffer h) < block_size)%nat.

(** [hasher.update(chunk)] *)
Definition update (h : hasher) (chunk : list byte) : hasher :=
  let data := h_buffer h ++ chunk in
  let r := absorb (h_alg h) (length data) (h_state h) data in
  {| h_alg := h_alg h; h_state := r.1; h_buffer := r.2;
     h_count := (h_count h + length chunk)%nat |}.

(** The padding of a message of [n] bytes: a 1 bit, zeros up to 56 bytes
    modulo 64, and the bit length on 8 bytes. *)
Definition padding (a : algorithm) (n : nat) : list byte :=
  x80 :: repeat x00 ((119 - n mod 64) mod 64)%nat
      ++ alg_length a (8 * Z.of_nat n).

(** [hasher.digest()] *)
Definition digest (h : hasher) : list byte :=
  let data := h_buffer h ++ padding (h_alg h) (h_count h) in
  alg_output (h_alg h) (absorb (h_alg h) (length data) (h_state h) data).1.

Definition hex_digit (n : N) : ascii :=
  ascii_of_N (if (n <? 10)%N then 48 + n else 87 + n).

Definition hex_byte (b : byte) : list ascii :=
  let n := Byte.to_N b in [hex_digit (n / 16); hex_digit (n mod 16)].

(** [hasher.hexdigest()]: two lowercase hexadecimal digits per byte. *)
Definition hexdigest (h : hasher) : string :=
  string_of_list_ascii (mjoin (hex_byte <$> digest h)).

(** [hashlib.<alg>(data).hexdigest()], the digest of a whole message. *)
Definition hash_bytes (a : algorithm) (data : list byte) : string :=
  hexdigest (update (new a) data).

End Digest.

Close Scope Z_scope.

(** ** Text helpers for the Python string operations the script uses *)

Definition nl : string := String "010" EmptyString.
Definition dquote : string := String "034" EmptyString.
Definition esc : string := String "027" EmptyString.

(** [str(n)] for a non-negative integer. *)
Definition str_nat (n : nat) : string := NilEmpty.string_of_uint (Nat.to_uint n).

(** [s.split(sep)] for a one-character separator. *)
Fixpoint split (sep : ascii) (s : string) : list string :=
  match s with
  | EmptyString => [EmptyString]
  | String c rest =>
      if Ascii.eqb c sep then EmptyString :: split sep rest
      else match split sep rest with
           | x :: xs => String c x :: xs
           | [] => [String c EmptyString]
           end
  end.

(** [sep.join(parts)] *)
Definition join (sep : string) (parts : list string) : string :=
  String.concat sep parts.

(** The characters [str.strip()] removes (those of the ASCII range for
    which [str.isspace()] holds). *)
Definition is_space (c : ascii) : bool :=
  let n := nat_of_ascii c in
  ((9 <=? n) && (n <=? 13)) || ((28 <=? n) && (n <=? 32)).

Fixpoint lstrip (s : string) : string :=
  match s with
  | EmptyString => EmptyString
  | String c rest => if is_space c then lstrip rest else s
  end.

Fixpoint rstrip (s : string) : string :=
  match s with
  | EmptyString => EmptyString
  | String c rest =>
      match rstrip rest with
      | EmptyString => if is_space c then EmptyString else String c EmptyString
      | r => String c r
      end
  end.

(** [s.strip()] *)
Definition strip (s : string) : string := rstrip (lstrip s).

(** ** The world the script runs in *)

(** A regular file: its bytes, whether [open(..., 'rb')] is permitted, and
    the offset of the first byte that cannot be read (an I/O error), if
    there is one. *)
Record file := {
  f_data : list byte;
  f_perm : bool;
  f_bad : option nat
}.

(** A file-system entry.  A directory lists its entries in the order
    [scandir] reports them.  [Special] stands for the entries that are
    neither regular files nor directories and that [open] refuses
    (a socket). *)
#[warnings="-register-all"]
Inductive node :=
| File (f : file)
| Dir (entries : list (string * node))
| Special.

(** What [open(path, 'a')] finds at a log destination: a text file that
    can be appended to, or a path at which the call fails (a directory, a
    missing parent, no write permission).  A destination that is absent
    from the map does not exist yet and can be created. *)
Inductive target :=
| Appendable (text : string)
| Refused.

(** The state of the machine.  The hashed tree is [w_root]; log
    destinations live in their own name space [w_dest], so the model does
    not cover a log that is itself among the hashed files.  [w_opens]
    records every call to [open], in order. *)
Record world := {
  w_root : node;
  w_cwd : list string;
  w_dest : gmap string target;
  w_stdout : list string;
  w_stderr : list string;
  w_opens : list string
}.

Definition put_stdout (s : string) (w : world) : world :=
  {| w_root := w_root w; w_cwd := w_cwd w; w_dest := w_dest w;
     w_stdout := w_stdout w ++ [s]; w_stderr := w_stderr w;
     w_opens := w_opens w |}.

Definition put_stderr (s : string) (w : world) : world :=
  {| w_root := w_root w; w_cwd := w_cwd w; w_dest := w_dest w;
     w_stdout := w_stdout w; w_stderr := w_stderr w ++ [s];
     w_opens := w_opens w |}.

Definition note_open (path : string) (w : world) : world :=
  {| w_root := w_root w; w_cwd := w_cwd w; w_dest := w_dest w;
     w_stdout := w_stdout w; w_stderr := w_stderr w;
     w_opens := w_opens w ++ [path] |}.

Definition set_dest (d : gmap string target) (w : world) : world :=
  {| w_root := w_root w; w_cwd := w_cwd w; w_dest := d;
     w_stdout := w_stdout w; w_stderr := w_stderr w;
     w_opens := w_opens w |}.

(** What the script asks of its surroundings and the model leaves open:
    the clock ([e_now i] is the formatted time at which the [i]-th file is
    logged, [e_today] the date used in the default log name) and the
    output of a shell command ([os.popen(cmd).read()]). *)
Record env := {
  e_now : nat -> string;
  e_today : string;
  e_popen : string -> string
}.

(** ** Exceptions *)

Inductive exn :=
| OSError (errno : nat) (strerror : string) (filename : option string)
| KeyError (key : string)
| KeyboardInterrupt
| SystemExit (code : nat).

(** Membership in the class [Exception], which [except Exception]
    catches; [KeyboardInterrupt] and [SystemExit] derive from
    [BaseException] only. *)
Definition is_Exception (e : exn) : bool :=
  match e with
  | OSError _ _ _ | KeyError _ => true
  | KeyboardInterrupt | SystemExit _ => false
  end.

(** [str(e)] *)
Definition exn_str (e : exn) : string :=
  match e with
  | OSError n msg None => "[Errno " +:+ str_nat n +:+ "] " +:+ msg
  | OSError n msg (Some name) =>
      "[Errno " +:+ str_nat n +:+ "] " +:+ msg +:+ ": '" +:+ name +:+ "'"
  | KeyError k => "'" +:+ k +:+ "'"
  | KeyboardInterrupt => ""
  | SystemExit n => str_nat n
  end.

(** The outcome of a statement: a value, or a raised exception. *)
Inductive result (A : Type) :=
| Ok (a : A)
| Raise (e : exn).
Arguments Ok {A} a.
Arguments Raise {A} e.

(** The exit status of the process for the outcome of [main()]. *)
Definition exit_status (r : result unit) : nat :=
  match r with
  | Ok _ => 0
  | Raise (SystemExit n) => n
  | Raise _ => 1
  end.

(** ** Console notices ([log_info], [log_error]) *)

Definition RED : string := esc +:+ "[0;31m".
Definition GREEN : string := esc +:+ "[0;32m".
Definition YELLOW : string := esc +:+ "[1;33m".
Definition NC : string := esc +:+ "[0m".

(** [print(s)] writes [s] and a line break to standard output. *)
Definition print (s : string) (w : world) : world := put_stdout (s +:+ nl) w.

Definition log_info (msg : string) (w : world) : world :=
  print (GREEN +:+ "[INFO]" +:+ NC +:+ " " +:+ msg) w.

Definition log_warn (msg : string) (w : world) : world :=
  print (YELLOW +:+ "[WARN]" +:+ NC +:+ " " +:+ msg) w.

Definition log_error (msg : string) (w : world) : world :=
  put_stderr (RED +:+ "[ERROR]" +:+ NC +:+ " " +:+ msg +:+ nl) w.

(** ** Path resolution by the operating system *)

Fixpoint lookup_entry (name : string) (es : list (string * node)) : option node :=
  match es with
  | [] => None
  | (n, child) :: rest =>
      if String.eqb n name then Some child else lookup_entry name rest
  end.

(** Follow the components of a path from the directory [cur]; [st] holds,
    innermost first, the name of each directory entered and its parent.
    Empty and [.] components stay in place, [..] goes up (the root is its
    own parent), and every step needs a directory to step from. *)
Fixpoint walk (st : list (string * node)) (cur : node) (parts : list string)
  : option (list (string * node) * node) :=
  match parts with
  | [] => Some (st, cur)
  | x :: rest =>
      match cur with
      | Dir es =>
          if String.eqb x "" || String.eqb x "." then walk st cur rest
          else if String.eqb x ".." then
            match st with
            | [] => walk [] cur rest
            | (_, parent) :: st' => walk st' parent rest
            end
          else
            match lookup_entry x es with
            | Some child => walk ((x, cur) :: st) child rest
            | None => None
            end
      | _ => None
      end
  end.

Definition is_absolute (s : string) : bool :=
  match s with
  | String c _ => Ascii.eqb c "/"
  | EmptyString => false
  end.

(** Resolve a path string as a system call does: from the root when it
    starts with a slash, from the working directory otherwise; the empty
    string names nothing. *)
Definition os_resolve (w : world) (s : string)
  : option (list (string * node) * node) :=
  if String.eqb s "" then None
  else
    let start :=
      if is_absolute s then Some ([], w_root w)
      else walk [] (w_root w) (w_cwd w) in
    match start with
    | Some (st, cur) => walk st cur (split "/" s)
    | None => None
    end.

(** [os.stat(s)], reduced to the entry found. *)
Definition os_stat (w : world) (s : string) : option node :=
  snd <$> os_resolve w s.

(** The place of the entry a path string names: the names on the way from
    the root. *)
Definition locate (w : world) (s : string) : option (list string) :=
  (fun r => rev (map fst (fst r))) <$> os_resolve w s.

(** [os.getcwd()] *)
Definition getcwd (w : world) : string := "/" +:+ join "/" (w_cwd w).

(** ** [pathlib] *)

(** A pure POSIX path: its root (empty, one slash or two) and its
    components. *)
Record Path := {
  p_root : string;
  p_parts : list string
}.

Fixpoint leading (c : ascii) (s : string) : nat :=
  match s with
  | String d rest => if Ascii.eqb d c then S (leading c rest) else 0
  | EmptyString => 0
  end.

Definition proper_part (x : string) : bool :=
  negb (String.eqb x "") && negb (String.eqb x ".").

(** [Path(s)]: exactly two leading slashes are kept as the root, any
    other number of them is one; empty and [.] components are dropped. *)
Definition Path_of (s : string) : Path :=
  let n := leading "/" s in
  {| p_root := if n =? 0 then "" else if n =? 2 then "//" else "/";
     p_parts := List.filter proper_part (split "/" s) |}.

(** [str(p)] *)
Definition Path_str (p : Path) : string :=
  let s := p_root p +:+ join "/" (p_parts p) in
  if String.eqb s "" then "." else s.

(** The path of an entry found below [p] by a directory walk. *)
Definition Path_child (p : Path) (rel : list string) : Path :=
  {| p_root := p_root p; p_parts := p_parts p ++ rel |}.

(** [p.is_dir()] and [p.is_file()] stat the string of the path. *)
Definition is_dir (w : world) (p : Path) : bool :=
  match os_stat w (Path_str p) with
  | Some (Dir _) => true
  | _ => false
  end.

Definition is_file (w : world) (p : Path) : bool :=
  match os_stat w (Path_str p) with
  | Some (File _) => true
  | _ => false
  end.

(** The entries [rglob('*')] yields below a directory, as paths relative
    to it: the entries of the directory itself, then those found under
    each of its sub-directories in turn.  Below anything that is not a
    directory there is nothing. *)
Fixpoint rglob_rel (n : node) : list (list string) :=
  match n with
  | Dir es =>
      map (fun e : string * node => [fst e]) es
      ++ flat_map (fun e : string * node =>
                     let (name, child) := e in
                     map (cons name) (rglob_rel child)) es
  | _ => []
  end.

(** [p.rglob('*')] *)
Definition rglob (w : world) (p : Path) : list Path :=
  match os_stat w (Path_str p) with
  | Some n => map (Path_child p) (rglob_rel n)
  | None => []
  end.

(** ** Binary file objects *)

(** An open file: the bytes not yet read and the distance to the
    unreadable byte, if any. *)
Record handle := {
  hd_rest : list byte;
  hd_bad : option nat
}.

(** [open(filepath, 'rb')].  Every path that does not resolve is reported
    as missing: the model does not tell [ENOTDIR] from [ENOENT]. *)
Definition open_rb (w : world) (filepath : string) : world * result handle :=
  let w' := note_open filepath w in
  match os_stat w filepath with
  | None => (w', Raise (OSError 2 "No such file or directory" (Some filepath)))
  | Some (Dir _) => (w', Raise (OSError 21 "Is a directory" (Some filepath)))
  | Some Special =>
      (w', Raise (OSError 6 "No such device or address" (Some filepath)))
  | Some (File f) =>
      if f_perm f then
        (w', Ok {| hd_rest := f_data f; hd_bad := f_bad f |})
      else (w', Raise (OSError 13 "Permission denied" (Some filepath)))
  end.

(** [f.read(n)]: up to [n] bytes, none at the end of the file; the call
    fails when it has to pass over the unreadable byte. *)
Definition read (f : handle) (n : nat) : result (list byte * handle) :=
  let chunk := take n (hd_rest f) in
  match hd_bad f with
  | Some k =>
      if k <? length chunk then Raise (OSError 5 "Input/output error" None)
      else Ok (chunk, {| hd_rest := drop n (hd_rest f);
                         hd_bad := Some (k - length chunk) |})
  | None => Ok (chunk, {| hd_rest := drop n (hd_rest f); hd_bad := None |})
  end.

(** ** The script *)

(** [HASH_ALGOS]: the dictionary from algorithm names to [hashlib]
    constructors, in insertion order. *)
Definition HASH_ALGOS : list (string * Digest.algorithm) :=
  [ ("sha256", Digest.Sha256.alg);
    ("sha1", Digest.Sha1.alg);
    ("md5", Digest.Md5.alg) ].

Fixpoint dict_get {A} (d : list (string * A)) (key : string) : option A :=
  match d with
  | [] => None
  | (k, v) :: rest => if String.eqb k key then Some v else dict_get rest key
  end.

Definition dict_keys {A} (d : list (string * A)) : list string := fst <$> d.

(** The loop [while chunk := f.read(size): hasher.update(chunk)].  Every
    turn but the last consumes at least one byte, so one turn per
    remaining byte and one more always suffice. *)
Fixpoint read_loop (fuel : nat) (size : nat) (hasher : Digest.hasher)
    (f : handle) : result Digest.hasher :=
  match fuel with
  | O => Ok hasher
  | S k =>
      match read f size with
      | Raise e => Raise e
      | Ok ([], _) => Ok hasher
      | Ok (chunk, f') => read_loop k size (Digest.update hasher chunk) f'
      end
  end.

(** The body of the [try] block of [hash_file], for a given chunk
    size. *)
Definition hash_try (size : nat) (w : world) (filepath : string)
    (hasher : Digest.hasher) : world * result string :=
  match open_rb w filepath with
  | (w', Raise e) => (w', Raise e)
  | (w', Ok f) =>
      match read_loop (S (length (hd_rest f))) size hasher f with
      | Raise e => (w', Raise e)
      | Ok h => (w', Ok (Digest.hexdigest h))
      end
  end.

(** [hash_file] reading [size] bytes at a time. *)
Definition hash_file_sized (size : nat) (w : world) (filepath : string)
    (algo_func : Digest.algorithm) : world * result (option string) :=
  let hasher := Digest.new algo_func in
  match hash_try size w filepath hasher with
  | (w', Ok d) => (w', Ok (Some d))
  | (w', Raise e) =>
      if is_Exception e then
        (log_error ("Failed to hash " +:+ filepath +:+ ": " +:+ exn_str e) w',
         Ok None)
      else (w', Raise e)
  end.

(** The number of bytes [hash_file] asks for in each read. *)
#[warnings="-abstract-large-number"]
Definition CHUNK : nat := 8192.

(** [hash_file(filepath, algo_func)] *)
Definition hash_file : world -> string -> Digest.algorithm
                       -> world * result (option string) :=
  hash_file_sized CHUNK.

(** One turn of the loop of [collect_files]. *)
Definition collect_step (acc : world * list string) (path : string)
  : world * list string :=
  let (w, files) := acc in
  let p := Path_of path in
  if is_dir w p then
    (w, files ++ map Path_str (List.filter (is_file w) (rglob w p)))
  else if is_file w p then (w, files ++ [Path_str p])
  else (log_error ("Invalid path: " +:+ path) w, files).

(** [collect_files(paths)] *)
Definition collect_files (w : world) (paths : list string)
  : world * list string :=
  fold_left collect_step paths (w, []).

(** The command line after tokenisation: the positional arguments and
    the values given to [--output] and [--algo], if any. *)
Record argv := {
  a_paths : list string;
  a_output : option string;
  a_algo : option string
}.

(** The namespace [parse_args] returns. *)
Record namespace := {
  n_paths : list string;
  n_output : string;
  n_algo : string
}.

Definition member (x : string) (l : list string) : bool :=
  existsb (String.eqb x) l.

(** [parser.parse_args()]: the value of [--algo] must be one of the keys
    of [HASH_ALGOS] and at least one path is required; otherwise the
    parser reports the error (the usage text it prints first is left
    out) and exits with status 2. *)
Definition parse_args (e : env) (w : world) (a : argv)
  : world * result namespace :=
  let algo := default "sha256" (a_algo a) in
  if negb (member algo (dict_keys HASH_ALGOS)) then
    (put_stderr ("error: argument --algo: invalid choice: '" +:+ algo +:+ "'"
                 +:+ nl) w,
     Raise (SystemExit 2))
  else
    match a_paths a with
    | [] =>
        (put_stderr ("error: the following arguments are required: paths"
                     +:+ nl) w,
         Raise (SystemExit 2))
    | _ =>
        (w, Ok {| n_paths := a_paths a;
                  n_output := default ("hasher-" +:+ e_today e +:+ ".txt")
                                      (a_output a);
                  n_algo := algo |})
    end.

(** [open(path, 'a')] *)
Definition open_append (w : world) (path : string) : world * result unit :=
  let w' := note_open path w in
  match w_dest w !! path with
  | Some Refused => (w', Raise (OSError 13 "Permission denied" (Some path)))
  | Some (Appendable _) => (w', Ok tt)
  | None => (set_dest (<[path := Appendable ""]> (w_dest w)) w', Ok tt)
  end.

Definition append_text (s : string) (t : target) : target :=
  match t with
  | Appendable text => Appendable (text +:+ s)
  | Refused => Refused
  end.

(** [out.write(s)] *)
Definition write (out : string) (s : string) (w : world) : world :=
  set_dest (alter (append_text s) out (w_dest w)) w.

(** Python's truth value of [hash_val]. *)
Definition truthy (v : option string) : bool :=
  match v with
  | None => false
  | Some s => negb (String.eqb s "")
  end.

(** The log line of one file. *)
Definition log_line (now file algo hash_val file_type cwd : string) : string :=
  "[" +:+ now +:+ "] File: '" +:+ file +:+ "' | Hash (" +:+ algo +:+ "): "
  +:+ hash_val +:+ " | Type: " +:+ file_type +:+ " | Dir: " +:+ cwd +:+ nl.

(** The loop [for i, file in enumerate(all_files, start=1)] of [main],
    from index [i] on. *)
Fixpoint hash_all (e : env) (args : namespace) (algo_func : Digest.algorithm)
    (total : nat) (i : nat) (files : list string) (w : world)
  : world * result unit :=
  match files with
  | [] => (w, Ok tt)
  | file :: rest =>
      let w := print ("[" +:+ str_nat i +:+ "/" +:+ str_nat total
                      +:+ "] Processing: " +:+ file) w in
      match hash_file w file algo_func with
      | (w, Raise x) => (w, Raise x)
      | (w, Ok hash_val) =>
          if negb (truthy hash_val) then
            hash_all e args algo_func total (S i) rest w
          else
            let file_type :=
              strip (e_popen e ("file -b " +:+ dquote +:+ file +:+ dquote)) in
            let now := e_now e i in
            let cwd := getcwd w in
            let w := log_info ("Hashed '" +:+ file +:+ "'") w in
            let line := log_line now file (n_algo args)
                                 (default "" hash_val) file_type cwd in
            let w := write (n_output args) line w in
            let w := put_stdout line w in
            hash_all e args algo_func total (S i) rest w
      end
  end.

(** [main()] *)
Definition main (e : env) (w : world) (a : argv) : world * result unit :=
  match parse_args e w a with
  | (w, Raise x) => (w, Raise x)
  | (w, Ok args) =>
      match dict_get HASH_ALGOS (n_algo args) with
      | None => (w, Raise (KeyError (n_algo args)))
      | Some algo_func =>
          let (w, all_files) := collect_files w (n_paths args) in
          match all_files with
          | [] => (log_error "No valid files found." w, Raise (SystemExit 1))
          | _ =>
              let total := length all_files in
              match open_append w (n_output args) with
              | (w, Raise x) => (w, Raise x)
              | (w, Ok _) => hash_all e args algo_func total 1 all_files w
              end
          end
      end
  end.

(** ** Notions the properties are stated with *)

(** No byte of the file is unreadable. *)
Definition fault_free (f : file) : bool :=
  match f_bad f with
  | Some k => length (f_data f) <=? k
  | None => true
  end.

(** The bytes of the file a path names, when it can be opened and read to
    its end. *)
Definition contents (w : world) (path : string) : option (list byte) :=
  match os_stat w path with
  | Some (File f) =>
      if f_perm f && fault_free f then Some (f_data f) else None
  | _ => None
  end.

(** Whether the file a path names can be opened and read to its end. *)
Definition readable (w : world) (path : string) : bool :=
  match contents w path with
  | Some _ => true
  | None => false
  end.

(** The error that stops the hashing of a path whose bytes cannot all be
    read. *)
Definition failure (w : world) (path : string) : exn :=
  match os_stat w path with
  | None => OSError 2 "No such file or directory" (Some path)
  | Some (Dir _) => OSError 21 "Is a directory" (Some path)
  | Some Special => OSError 6 "No such device or address" (Some path)
  | Some (File f) =>
      if f_perm f then OSError 5 "Input/output error" None
      else OSError 13 "Permission denied" (Some path)
  end.

(** The notice [hash_file] sends to the error stream for such a path. *)
Definition failure_notice (w : world) (path : string) : string :=
  RED +:+ "[ERROR]" +:+ NC +:+ " "
  +:+ ("Failed to hash " +:+ path +:+ ": " +:+ exn_str (failure w path))
  +:+ nl.


(** The digests of the empty message, as published with each algorithm
    (FIPS 180-4 for SHA-256 and SHA-1, RFC 1321 for MD5). *)
Definition EMPTY_DIGESTS : list (string * string) :=
  [ ("sha256",
     "e3b0c44298fc1c149afbf4c8996fb92427ae41e4649b934ca495991b7852b855");
    ("sha1", "da39a3ee5e6b4b0d3255bfef95601890afd80709");
    ("md5", "d41d8cd98f00b204e9800998ecf8427e") ].


Fixpoint has_slash (s : string) : bool :=
  match s with
  | EmptyString => false
  | String c rest => Ascii.eqb c "/" || has_slash rest
  end.

(** A name a directory entry can bear: not empty, not [.] or [..], and
    without a slash. *)
Definition valid_name (x : string) : bool :=
  proper_part x && negb (String.eqb x "..") && negb (has_slash x).

Fixpoint distinct (l : list string) : bool :=
  match l with
  | [] => true
  | x :: rest => negb (member x rest) && distinct rest
  end.

(** A well-formed tree: in every directory the names are valid and
    pairwise distinct. *)
Fixpoint wf_node (n : node) : bool :=
  match n with
  | Dir es =>
      distinct (map fst es)
      && forallb (fun e : string * node =>
                    let (name, child) := e in valid_name name && wf_node child)
                 es
  | _ => true
  end.

(** The entry reached from [n] by descending through the names of
    [rel]. *)
Fixpoint node_at (n : node) (rel : list string) : option node :=
  match rel with
  | [] => Some n
  | x :: rest =>
      match n with
      | Dir es =>
          match lookup_entry x es with
          | Some child => node_at child rest
          | None => None
          end
      | _ => None
      end
  end.

(** What one input path contributes to the list of [collect_files]. *)
Definition expand (w : world) (path : string) : list string :=
  let p := Path_of path in
  if is_dir w p then map Path_str (List.filter (is_file w) (rglob w p))
  else if is_file w p then [Path_str p]
  else [].

(** An input path that is neither a directory nor a regular file. *)
Definition invalid (w : world) (path : string) : bool :=
  negb (is_dir w (Path_of path)) && negb (is_file w (Path_of path)).

Definition invalid_notice (path : string) : string :=
  RED +:+ "[ERROR]" +:+ NC +:+ " " +:+ ("Invalid path: " +:+ path) +:+ nl.

(** A path string without its leading slash, if it has one. *)
Definition strip_root (s : string) : string :=
  match s with
  | String c t => if Ascii.eqb c "/" then t else s
  | EmptyString => s
  end.

(** A path written with proper components only: nothing for [Path] to
    drop. *)
Definition plain (s : string) : bool :=
  forallb proper_part (split "/" (strip_root s)).

(** The entry a pure path names, found from its components. *)
Definition path_resolve (w : world) (p : Path)
  : option (list (string * node) * node) :=
  let start :=
    if String.eqb (p_root p) "" then walk [] (w_root w) (w_cwd w)
    else Some ([], w_root w) in
  match start with
  | Some (st, Dir es) => walk st (Dir es) (p_parts p)
  | _ => None
  end.

(** A path as [Path] builds it: a root of at most two slashes, and
    components that are not empty and hold no slash. *)
Definition clean (p : Path) : Prop :=
  (p_root p = "" ∨ p_root p = "/" ∨ p_root p = "//")
  ∧ Forall (fun x => x ≠ "" ∧ has_slash x = false) (p_parts p).


(** Two worlds with the same tree and working directory. *)
Definition same_fs (w w' : world) : Prop :=
  w_root w = w_root w' ∧ w_cwd w = w_cwd w'.

(** The world after the notices [l] went to the error stream. *)
Definition add_stderr (l : list string) (w : world) : world :=
  {| w_root := w_root w; w_cwd := w_cwd w; w_dest := w_dest w;
     w_stdout := w_stdout w; w_stderr := w_stderr w ++ l;
     w_opens := w_opens w |}.

Definition is_File (o : option node) : bool :=
  match o with
  | Some (File _) => true
  | _ => false
  end.



(** The text a sequence of writes leaves in a file. *)
Definition text_of (l : list string) : string := fold_right String.append "" l.

(** The text of a log destination; nothing for one that does not exist
    or cannot be opened. *)
Definition log_text (w : world) (out : string) : string :=
  match w_dest w !! out with
  | Some (Appendable t) => t
  | _ => ""
  end.

(** The record [main] writes for the [i]-th file of its list, when the
    bytes of the file can all be read. *)
Definition record (e : env) (algo : string) (alg : Digest.algorithm)
    (w : world) (i : nat) (file : string) : option string :=
  match contents w file with
  | Some data =>
      Some (log_line (e_now e i) file algo (Digest.hash_bytes alg data)
              (strip (e_popen e ("file -b " +:+ dquote +:+ file +:+ dquote)))
              (getcwd w))
  | None => None
  end.

(** The records of a list of files, numbered from [i]. *)
Fixpoint records (e : env) (algo : string) (alg : Digest.algorithm)
    (w : world) (i : nat) (files : list string) : list string :=
  match files with
  | [] => []
  | file :: rest =>
      option_list (record e algo alg w i file)
      ++ records e algo alg w (S i) rest
  end.

(** What the loop of [main] prints on standard output. *)
Fixpoint console (e : env) (algo : string) (alg : Digest.algorithm)
    (w : world) (total i : nat) (files : list string) : list string :=
  match files with
  | [] => []
  | file :: rest =>
      (("[" +:+ str_nat i +:+ "/" +:+ str_nat total +:+ "] Processing: "
        +:+ file) +:+ nl)
      :: match record e algo alg w i file with
         | Some line =>
             [ (GREEN +:+ "[INFO]" +:+ NC +:+ " "
                +:+ ("Hashed '" +:+ file +:+ "'")) +:+ nl; line ]
         | None => []
         end
      ++ console e algo alg w total (S i) rest
  end.

(** The notices of the files that could not be hashed. *)
Fixpoint notices (w : world) (files : list string) : list string :=
  match files with
  | [] => []
  | file :: rest =>
      match contents w file with
      | Some _ => []
      | None => [failure_notice w file]
      end ++ notices w rest
  end.


(** The number of line breaks in a text. *)
Fixpoint line_count (s : string) : nat :=
  match s with
  | EmptyString => 0
  | String c rest => (if Ascii.eqb c "010" then 1 else 0) + line_count rest
  end.

(** ** A small machine to run the script on *)
Module Sample.

Definition text_file (s : string) : node :=
  File {| f_data := list_byte_of_string s; f_perm := true; f_bad := None |}.

(** A file without read permission and one with an unreadable byte. *)
Definition locked_file : node :=
  File {| f_data := list_byte_of_string "xyz"; f_perm := false;
          f_bad := None |}.

Definition damaged_file : node :=
  File {| f_data := list_byte_of_string "hello"; f_perm := true;
          f_bad := Some 2 |}.

Definition two_lines : string := "two" +:+ nl +:+ "lines".

Definition root : node :=
  Dir [ ("home",
         Dir [ ("u",
                Dir [ ("a.txt", text_file "abc");
                      ("d", Dir [ ("b.txt", text_file "");
                                  ("e", Dir [ ("c.txt", locked_file) ]);
                                  ("sock", Special) ]);
                      ("z.txt", damaged_file);
                      (two_lines, text_file "x");
                      ("void", Dir []) ]) ]) ].

Definition machine : world :=
  {| w_root := root; w_cwd := ["home"; "u"]; w_dest := ∅;
     w_stdout := []; w_stderr := []; w_opens := [] |}.

(** The same machine with a log that already holds a line, and with a
    log that cannot be opened. *)
Definition machine_with_log : world :=
  set_dest {[ "out.log" := Appendable ("an older line" +:+ nl) ]} machine.

Definition machine_refusing : world :=
  set_dest {[ "out.log" := Refused ]} machine.

Definition surroundings : env :=
  {| e_now := fun i => "2024-01-01 00:00:0" +:+ str_nat i;
     e_today := "2024-01-01";
     e_popen := fun _ => "ASCII text" +:+ nl |}.

(** The command line [new.py --output out.log paths...]. *)
Definition command (paths : list string) : argv :=
  {| a_paths := paths; a_output := Some "out.log"; a_algo := None |}.

End Sample.


(** ** Notions for the further properties *)

(** A lowercase hexadecimal digit. *)
Definition is_hex_lower (c : ascii) : bool :=
  let n := nat_of_ascii c in
  ((48 <=? n) && (n <=? 57)) || ((97 <=? n) && (n <=? 102)).

(** The number of characters of the hexadecimal digest of each entry of
    [HASH_ALGOS]: two per byte of a 256-, 160- and 128-bit digest. *)
Definition HEX_LENGTHS : list (string * nat) :=
  [ ("sha256", 64); ("sha1", 40); ("md5", 32) ].

(** The command line the parser refuses: an [--algo] value that is no key
    of [HASH_ALGOS], or no path at all. *)
Definition bad_args (a : argv) : bool :=
  negb (member (default "sha256" (a_algo a)) (dict_keys HASH_ALGOS))
  || match a_paths a with [] => true | _ => false end.

(** The log a command line designates. *)
Definition output_name (e : env) (a : argv) : string :=
  default ("hasher-" +:+ e_today e +:+ ".txt") (a_output a).

(** A path whose string [Path] reads back unchanged: a root of at most
    two slashes and proper components without a slash. *)
Definition tidy (p : Path) : Prop :=
  (p_root p = "" ∨ p_root p = "/" ∨ p_root p = "//")
  ∧ Forall (fun x => proper_part x = true ∧ has_slash x = false) (p_parts p).

(** The first and the last character of a string. *)
Definition first_char (s : string) : option ascii :=
  match s with
  | String c _ => Some c
  | EmptyString => None
  end.

Fixpoint last_char (s : string) : option ascii :=
  match s with
  | EmptyString => None
  | String c EmptyString => Some c
  | String _ rest => last_char rest
  end.


(** [os.path.exists(s)] *)
Definition path_exists (w : world) (s : string) : bool :=
  match os_stat w s with
  | Some _ => true
  | None => false
  end.

(** ** [hasher.py]

    The script, for the line [file_path] typed at its prompt: it prints
    the working directory, prompts, echoes the line and says so when the
    path does not exist.  (It also asks for the number of processors and
    does nothing with it.) *)
Definition hasher_py (w : world) (file_path : string) : world :=
  let w := print ("Your current path " +:+ " " +:+ getcwd w) w in
  let w := put_stdout "Enter file path you'd like to has from: " w in
  let w := print file_path w in
  if negb (path_exists w file_path) then print "Path of the file is Invalid" w
  else w.

(** * Properties *)

(** ** The digest object *)
Module DigestFacts.
Import Digest.

Lemma absorb_short a fuel st data :
  length data < block_size → absorb a fuel st data = (st, data).
Proof.
  intros H. destruct fuel as [|k]; [done|].
  cbn [absorb]. apply Nat.ltb_lt in H. by rewrite H.
Qed.

Lemma absorb_step a fuel st data :
  block_size ≤ length data → length data ≤ fuel →
  absorb a fuel st data
  = absorb a (pred fuel) (alg_compress a st (take block_size data))
           (drop block_size data).
Proof.
  intros Hb Hf. destruct fuel as [|k].
  - unfold block_size in Hb. lia.
  - cbn [absorb pred]. apply Nat.ltb_ge in Hb. by rewrite Hb.
Qed.

(** Any fuel that covers the data gives the same result. *)
Lemma absorb_fuel a fuel1 : ∀ fuel2 st data,
  length data ≤ fuel1 → length data ≤ fuel2 →
  absorb a fuel1 st data = absorb a fuel2 st data.
Proof.
  induction fuel1 as [|k IH]; intros fuel2 st data H1 H2.
  - rewrite !absorb_short; [done|unfold block_size; lia..].
  - destruct (Nat.lt_ge_cases (length data) block_size) as [Hs|Hl].
    + by rewrite !absorb_short.
    + rewrite (absorb_step a (S k)), (absorb_step a fuel2) by done.
      unfold block_size in Hl.
      apply IH; rewrite length_drop; unfold block_size; cbn [pred]; lia.
Qed.

Lemma absorb_rest_short a fuel : ∀ st data,
  length data ≤ fuel → length (absorb a fuel st data).2 < block_size.
Proof.
  induction fuel as [|k IH]; intros st data Hf.
  - rewrite absorb_short; [|unfold block_size; lia].
    cbn. unfold block_size. lia.
  - destruct (Nat.lt_ge_cases (length data) block_size) as [Hs|Hl].
    + by rewrite absorb_short.
    + rewrite absorb_step by done. cbn [pred]. apply IH.
      rewrite length_drop. unfold block_size in *. lia.
Qed.

(** Absorbing [x ++ y] is absorbing [x] and then, from where that
    stopped, the rest of [x] followed by [y]. *)
Lemma absorb_app a n : ∀ st x y,
  length x ≤ n →
  absorb a (length (x ++ y)) st (x ++ y)
  = absorb a (length ((absorb a (length x) st x).2 ++ y))
           (absorb a (length x) st x).1
           ((absorb a (length x) st x).2 ++ y).
Proof.
  induction n as [|n IH]; intros st x y Hn.
  - by rewrite (absorb_short a _ st x) by (unfold block_size; lia).
  - destruct (Nat.lt_ge_cases (length x) block_size) as [Hs|Hl].
    + by rewrite (absorb_short a _ st x).
    + assert (block_size ≤ length (x ++ y)) as Hxy
        by (rewrite length_app; lia).
      rewrite (absorb_step a _ st (x ++ y)), (absorb_step a _ st x) by done.
      rewrite take_app_le, drop_app_le by done.
      set (st' := alg_compress a st (take block_size x)).
      set (x' := drop block_size x).
      assert (length x' ≤ n) as Hx'.
      { subst x'. rewrite length_drop. unfold block_size in *. lia. }
      rewrite (absorb_fuel a (pred (length x)) (length x') st' x');
        [|subst x'; rewrite length_drop; unfold block_size in *; lia|done].
      rewrite <- (IH st' x' y Hx').
      apply absorb_fuel; [|done].
      subst x'. rewrite !length_app, length_drop. unfold block_size in *. lia.
Qed.

(** Feeding two chunks one after the other is feeding their
    concatenation. *)
Lemma update_app h x y : update (update h x) y = update h (x ++ y).
Proof.
  unfold update; cbn [h_alg h_state h_buffer h_count].
  rewrite (assoc_L (++) (h_buffer h) x y).
  rewrite (absorb_app (h_alg h) (length (h_buffer h ++ x)) (h_state h)
             (h_buffer h ++ x) y) by done.
  f_equal. rewrite length_app. lia.
Qed.

Lemma short_new a : short (new a).
Proof. unfold short, block_size. cbn. lia. Qed.

Lemma short_update h x : short (update h x).
Proof. unfold short, update. cbn [h_buffer]. by apply absorb_rest_short. Qed.

Lemma update_nil h : short h → update h [] = h.
Proof.
  intros Hs. destruct h as [a st buf n]. unfold short in Hs. cbn in Hs.
  unfold update; cbn [h_alg h_state h_buffer h_count].
  rewrite (right_id_L [] (++)), absorb_short by done.
  cbn. f_equal. lia.
Qed.

End DigestFacts.

(** ** Reading a file chunk by chunk *)
Section ReadLoop.
Import Digest DigestFacts.

Lemma CHUNK_pos : 0 < CHUNK.
Proof. apply Nat.ltb_lt. by vm_compute. Qed.

Variable size : nat.
Hypothesis size_pos : 0 < size.

(** Without a fault in reach the loop feeds every byte and stops. *)
Lemma read_loop_ok fuel : ∀ h data bad,
  length data < fuel → short h →
  match bad with Some k => length data ≤ k | None => True end →
  read_loop fuel size h {| hd_rest := data; hd_bad := bad |}
  = Ok (update h data).
Proof.
  induction fuel as [|fuel IH]; intros h data bad Hf Hs Hb; [lia|].
  cbn [read_loop]. unfold read; cbn [hd_rest hd_bad].
  assert (length (take size data) ≤ length data) as Hle
    by (rewrite length_take; lia).
  assert (∀ bad',
    match bad' with
    | Some k => length (drop size data) ≤ k | None => True end →
    match take size data with
    | [] => Ok h
    | _ :: _ => read_loop fuel size (update h (take size data))
                  {| hd_rest := drop size data; hd_bad := bad' |}
    end = Ok (update h data)) as Hgo.
  { intros bad' Hb'. destruct (take size data) as [|b t] eqn:Et.
    - assert (data = []) as ->.
      { destruct data; [done|]. destruct size; [lia|done]. }
      by rewrite update_nil.
    - rewrite <- Et. rewrite IH; [|rewrite length_drop|apply short_update|done].
      + by rewrite update_app, take_drop.
      + assert (length (take size data) ≠ 0) by (rewrite Et; cbn; lia).
        rewrite length_take in *. lia. }
  destruct bad as [k|].
  - destruct (Nat.ltb_spec k (length (take size data))); [lia|].
    apply Hgo. rewrite length_drop, length_take. lia.
  - by apply Hgo.
Qed.

(** With an unreadable byte in the file the loop ends in an error. *)
Lemma read_loop_fault fuel : ∀ h data k,
  length data < fuel → k < length data →
  read_loop fuel size h {| hd_rest := data; hd_bad := Some k |}
  = Raise (OSError 5 "Input/output error" None).
Proof.
  induction fuel as [|fuel IH]; intros h data k Hf Hk; [lia|].
  cbn [read_loop]. unfold read; cbn [hd_rest hd_bad].
  destruct (Nat.ltb_spec k (length (take size data))) as [|Hge]; [done|].
  rewrite length_take in Hge.
  destruct (take size data) as [|b t] eqn:Et.
  - apply (f_equal length) in Et. rewrite length_take in Et. cbn in Et. lia.
  - rewrite <- Et. apply IH; rewrite length_drop, ?length_take; lia.
Qed.

(** The body of the [try] block: the digest of the whole contents, or an
    error of the operating system. *)
Lemma hash_try_spec w path a :
  hash_try size w path (new a)
  = (note_open path w,
     match contents w path with
     | Some data => Ok (hash_bytes a data)
     | None => Raise (failure w path)
     end).
Proof.
  unfold hash_try, open_rb, contents, failure.
  destruct (os_stat w path) as [[f| |]|]; try done.
  destruct f as [data perm bad]; cbn [f_perm f_data f_bad].
  destruct perm; [|done]. cbn [hd_rest andb].
  unfold fault_free; cbn [f_bad f_data].
  destruct bad as [k|].
  - destruct (Nat.leb_spec (length data) k).
    + by rewrite read_loop_ok; [|lia|apply short_new|].
    + by rewrite read_loop_fault; [|lia|].
  - by rewrite read_loop_ok; [|lia|apply short_new|].
Qed.

Lemma failure_is_Exception w path : is_Exception (failure w path) = true.
Proof.
  unfold failure. destruct (os_stat w path) as [[f| |]|]; try done.
  by destruct (f_perm f).
Qed.

(** [hash_file], whatever the chunk size: the digest of the whole
    contents, or a notice and [None]. *)
Lemma hash_file_sized_spec w path a :
  hash_file_sized size w path a
  = match contents w path with
    | Some data => (note_open path w, Ok (Some (hash_bytes a data)))
    | None => (put_stderr (failure_notice w path) (note_open path w), Ok None)
    end.
Proof.
  unfold hash_file_sized. rewrite hash_try_spec.
  destruct (contents w path) as [data|]; [done|].
  by rewrite failure_is_Exception.
Qed.

End ReadLoop.

Lemma hash_file_spec w path a :
  hash_file w path a
  = match contents w path with
    | Some data => (note_open path w, Ok (Some (Digest.hash_bytes a data)))
    | None => (put_stderr (failure_notice w path) (note_open path w), Ok None)
    end.
Proof. apply hash_file_sized_spec, CHUNK_pos. Qed.

(** ** The algorithms of [HASH_ALGOS] *)
Module AlgoFacts.
Import Word32 Digest DigestFacts.

Ltac open_list l :=
  repeat (destruct l as [|? l]; try (cbn in *; lia)).

Lemma fold_left_keeps {A B} (f : list A → B → list A) n :
  (∀ s x, length s = n → length (f s x) = n) →
  ∀ xs s, length s = n → length (fold_left f xs s) = n.
Proof. intros Hf xs. induction xs as [|x xs IH]; cbn; auto. Qed.

Lemma to_be_nonempty n z : to_be (S n) z ≠ [].
Proof. cbn. by destruct (to_be n (Z.shiftr z 8)). Qed.

Lemma to_le_nonempty n z : to_le (S n) z ≠ [].
Proof.
  unfold to_le. cbn. rewrite rev_app_distr. by cbn.
Qed.

Lemma mjoin_nonempty {A B} (f : A → list B) (l : list A) :
  (∀ x, f x ≠ []) → l ≠ [] → mjoin (f <$> l) ≠ [].
Proof.
  intros Hf Hl. destruct l as [|x l]; [done|]. cbn.
  specialize (Hf x). by destruct (f x).
Qed.

Lemma steady_sha256 : steady Sha256.alg 8.
Proof.
  split; [done|split].
  - intros st blk Hst. cbn. unfold Sha256.compress.
    rewrite length_zip_with, fold_left_keeps with (n := 8); [lia| |done].
    intros s x Hs. open_list s; done.
  - intros st Hst. apply mjoin_nonempty; [apply to_be_nonempty|].
    by destruct st.
Qed.

Lemma steady_sha1 : steady Sha1.alg 5.
Proof.
  split; [done|split].
  - intros st blk Hst. cbn. unfold Sha1.compress.
    rewrite length_zip_with, fold_left_keeps with (n := 5); [lia| |done].
    intros s x Hs. open_list s; done.
  - intros st Hst. apply mjoin_nonempty; [apply to_be_nonempty|].
    by destruct st.
Qed.

Lemma steady_md5 : steady Md5.alg 4.
Proof.
  split; [done|split].
  - intros st blk Hst. cbn. unfold Md5.compress.
    rewrite length_zip_with, fold_left_keeps with (n := 4); [lia| |done].
    intros s x Hs. open_list s; done.
  - intros st Hst. apply mjoin_nonempty; [apply to_le_nonempty|].
    by destruct st.
Qed.

Lemma absorb_keeps a n fuel : steady a n → ∀ st data,
  length st = n → length (absorb a fuel st data).1 = n.
Proof.
  intros (_ & Hc & _). induction fuel as [|k IH]; intros st data Hst; [done|].
  cbn [absorb]. destruct (_ <? _)%nat; [done|]. by apply IH, Hc.
Qed.

Lemma update_keeps a n h x :
  steady a n → h_alg h = a → length (h_state h) = n →
  length (h_state (update h x)) = n.
Proof.
  intros Ha <- Hst. unfold update. cbn [h_state]. by apply absorb_keeps.
Qed.

(** A digest in hexadecimal is never the empty string. *)
Lemma hash_bytes_nonempty a n data : steady a n → hash_bytes a data ≠ "".
Proof.
  intros Ha. unfold hash_bytes, hexdigest, digest.
  set (h := update (new a) data).
  assert (h_alg h = a) as Halg by done.
  assert (length (h_state h) = n) as Hlen.
  { apply (update_keeps a); [done..|]. by destruct Ha. }
  rewrite Halg.
  pose proof Ha as (_ & _ & Hout).
  destruct (alg_output a _) as [|b bs] eqn:Eo.
  - exfalso. eapply Hout; [|exact Eo]. by apply (absorb_keeps a n).
  - done.
Qed.

(** The three entries of [HASH_ALGOS]. *)
Lemma HASH_ALGOS_cases name a :
  dict_get HASH_ALGOS name = Some a →
  (name = "sha256" ∧ a = Sha256.alg) ∨ (name = "sha1" ∧ a = Sha1.alg)
  ∨ (name = "md5" ∧ a = Md5.alg).
Proof.
  unfold HASH_ALGOS. cbn [dict_get].
  destruct (String.eqb_spec "sha256" name); [intros [= <-]; auto|].
  destruct (String.eqb_spec "sha1" name); [intros [= <-]; auto|].
  destruct (String.eqb_spec "md5" name); [intros [= <-]; auto|].
  done.
Qed.

Lemma supported_nonempty name a data :
  dict_get HASH_ALGOS name = Some a → hash_bytes a data ≠ "".
Proof.
  intros [[_ ->]|[[_ ->]|[_ ->]]]%HASH_ALGOS_cases.
  - apply (hash_bytes_nonempty _ 8), steady_sha256.
  - apply (hash_bytes_nonempty _ 5), steady_sha1.
  - apply (hash_bytes_nonempty _ 4), steady_md5.
Qed.

End AlgoFacts.

(** The three algorithms agree with [hashlib] on messages of one, two
    and three blocks, padding included. *)
Module DigestVectors.
Import Digest.

Example sha256_vectors :
  hash_bytes Sha256.alg (list_byte_of_string "abc")
  = "ba7816bf8f01cfea414140de5dae2223b00361a396177a9cb410ff61f20015ad"
  ∧ hash_bytes Sha256.alg (repeat x61 56)
    = "b35439a4ac6f0948b6d6f9e3c6af0f5f590ce20f1bde7090ef7970686ec6738a"
  ∧ hash_bytes Sha256.alg (repeat x61 64)
    = "ffe054fe7ae0cb6dc65c3af9b61d5209f439851db43d0ba5997337df154668eb"
  ∧ hash_bytes Sha256.alg
      (mjoin (repeat (list_byte_of_string
                        "The quick brown fox jumps over the lazy dog") 3))
    = "5cfa2bf023f22ac82b00cd883ea96852677ff2ecd777f656146bd22004eb75f2".
Proof. vm_compute. repeat split. Qed.

Example sha1_vectors :
  hash_bytes Sha1.alg (list_byte_of_string "abc")
  = "a9993e364706816aba3e25717850c26c9cd0d89d"
  ∧ hash_bytes Sha1.alg (repeat x61 56)
    = "c2db330f6083854c99d4b5bfb6e8f29f201be699"
  ∧ hash_bytes Sha1.alg (repeat x61 64)
    = "0098ba824b5c16427bd7a1122a5a442a25ec644d"
  ∧ hash_bytes Sha1.alg
      (mjoin (repeat (list_byte_of_string
                        "The quick brown fox jumps over the lazy dog") 3))
    = "d42f858ad812fd986fd8dc7216af5f88bcaa1463".
Proof. vm_compute. repeat split. Qed.

Example md5_vectors :
  hash_bytes Md5.alg (list_byte_of_string "abc")
  = "900150983cd24fb0d6963f7d28e17f72"
  ∧ hash_bytes Md5.alg (repeat x61 56)
    = "3b0c8ac703f828b04c6c197006d17218"
  ∧ hash_bytes Md5.alg (repeat x61 64)
    = "014842d480b571495a4a0363793f7367"
  ∧ hash_bytes Md5.alg
      (mjoin (repeat (list_byte_of_string
                        "The quick brown fox jumps over the lazy dog") 3))
    = "4e67db4a7a406b0cfdadd887cde7888e".
Proof. vm_compute. repeat split. Qed.

End DigestVectors.

(** ** Splitting and joining path strings *)
Section PathStrings.

Lemma append_cons c r t : String c r +:+ t = String c (r +:+ t).
Proof. done. Qed.

Lemma append_nil t : "" +:+ t = t.
Proof. done. Qed.

Lemma split_nonempty s : split "/" s ≠ [].
Proof.
  destruct s as [|c r]; [done|]. cbn [split].
  destruct (Ascii.eqb c "/"); [done|]. by destruct (split "/" r).
Qed.

Lemma split_slash s : split "/" (String "/" s) = "" :: split "/" s.
Proof. done. Qed.

Lemma split_cons c s :
  Ascii.eqb c "/" = false →
  split "/" (String c s)
  = match split "/" s with
    | x :: xs => String c x :: xs
    | [] => [String c ""]
    end.
Proof. intros H. cbn [split]. by rewrite H. Qed.

Lemma join_cons x y r :
  join "/" (x :: y :: r) = x +:+ String "/" (join "/" (y :: r)).
Proof. done. Qed.

Lemma join_split s : join "/" (split "/" s) = s.
Proof.
  induction s as [|c r IH]; [done|].
  destruct (Ascii.eqb c "/") eqn:E.
  - apply Ascii.eqb_eq in E as ->. rewrite split_slash.
    destruct (split "/" r) as [|x xs] eqn:Er; [by apply split_nonempty in Er|].
    rewrite join_cons, IH. done.
  - rewrite split_cons by done.
    destruct (split "/" r) as [|x xs] eqn:Er; [by apply split_nonempty in Er|].
    transitivity (String c (join "/" (x :: xs))); [by destruct xs|].
    by rewrite IH.
Qed.

Lemma split_pieces s : Forall (fun x => has_slash x = false) (split "/" s).
Proof.
  induction s as [|c r IH]; [by repeat constructor|].
  destruct (Ascii.eqb c "/") eqn:E.
  - cbn [split]. rewrite E. by constructor.
  - rewrite split_cons by done.
    destruct (split "/" r) as [|x xs] eqn:Er; [by apply split_nonempty in Er|].
    inversion_clear IH. constructor; [|done]. cbn. by rewrite E.
Qed.

Lemma split_app_sep x s :
  has_slash x = false →
  split "/" (x +:+ String "/" s) = x :: split "/" s.
Proof.
  induction x as [|c r IH]; [done|]. cbn [has_slash].
  intros [Hc Hr]%orb_false_elim.
  rewrite append_cons, split_cons, IH by done. done.
Qed.

Lemma split_whole x : has_slash x = false → split "/" x = [x].
Proof.
  induction x as [|c r IH]; [done|]. cbn [has_slash].
  intros [Hc Hr]%orb_false_elim. by rewrite split_cons, IH.
Qed.

Lemma split_join parts :
  parts ≠ [] → Forall (fun x => has_slash x = false) parts →
  split "/" (join "/" parts) = parts.
Proof.
  induction parts as [|x [|y r] IH]; intros Hne Hall; [done|..].
  - cbn. apply split_whole. by inversion Hall.
  - rewrite join_cons. inversion_clear Hall.
    rewrite split_app_sep, IH by done. done.
Qed.

Lemma join_head x r :
  x ≠ "" → has_slash x = false →
  join "/" (x :: r) ≠ "" ∧ is_absolute (join "/" (x :: r)) = false.
Proof.
  intros Hx Hs. destruct x as [|c x]; [done|].
  cbn [has_slash] in Hs. apply orb_false_elim in Hs as [Hc _].
  destruct r; [done|]. rewrite join_cons, append_cons. cbn. by rewrite Hc.
Qed.

End PathStrings.

(** ** Resolving paths *)
Section Resolution.

Lemma walk_app parts1 : ∀ st cur parts2,
  walk st cur (parts1 ++ parts2)
  = match walk st cur parts1 with
    | Some (st', n) => walk st' n parts2
    | None => None
    end.
Proof.
  induction parts1 as [|x r IH]; intros st cur parts2; [done|].
  cbn [walk app]. destruct cur as [f|es|]; [done| |done].
  destruct (String.eqb x "" || String.eqb x "."); [apply IH|].
  destruct (String.eqb x "..").
  - destruct st as [|[? ?] ?]; apply IH.
  - destruct (lookup_entry x es); [apply IH|done].
Qed.

Lemma walk_stay st es x r :
  proper_part x = false → walk st (Dir es) (x :: r) = walk st (Dir es) r.
Proof.
  unfold proper_part. intros H. cbn [walk].
  destruct (String.eqb x ""), (String.eqb x "."); done.
Qed.

(** On the string of a clean path the system finds what the components
    of the path lead to. *)
Lemma os_resolve_str w p : clean p → os_resolve w (Path_str p) = path_resolve w p.
Proof.
  destruct p as [root parts]. intros [Hroot Hparts]. cbn in Hroot, Hparts.
  unfold Path_str, path_resolve, os_resolve; cbn [p_root p_parts].
  assert (∀ st es, walk st (Dir es) (split "/" (join "/" parts))
                   = walk st (Dir es) parts) as Hw.
  { intros st es. destruct parts as [|x r]; [done|].
    rewrite split_join; [done..|]. eapply Forall_impl; [exact Hparts|].
    by intros ? [_ ?]. }
  destruct Hroot as [->|[->| ->]].
  - rewrite append_nil. destruct parts as [|x r].
    + cbn. by destruct (walk [] (w_root w) (w_cwd w)) as [[st [f|es|]]|].
    + inversion_clear Hparts as [|? ? [Hx Hs] _].
      destruct (join_head x r Hx Hs) as [Hne Habs].
      apply String.eqb_neq in Hne. rewrite Hne, Hne, Habs.
      change (String.eqb "" "") with true. cbn match.
      destruct (walk [] (w_root w) (w_cwd w)) as [[st [f|es|]]|]; try done.
      * by destruct (split "/" (join "/" (x :: r))) eqn:E;
          [apply split_nonempty in E|].
      * by destruct (split "/" (join "/" (x :: r))) eqn:E;
          [apply split_nonempty in E|].
  - change ("/" +:+ join "/" parts) with (String "/" (join "/" parts)).
    cbn [String.eqb is_absolute Ascii.eqb Bool.eqb]. cbn match.
    rewrite split_slash.
    destruct (w_root w) as [f|es|]; [done| |done].
    rewrite walk_stay by done. apply Hw.
  - change ("//" +:+ join "/" parts)
      with (String "/" (String "/" (join "/" parts))).
    cbn [String.eqb is_absolute Ascii.eqb Bool.eqb]. cbn match.
    rewrite !split_slash.
    destruct (w_root w) as [f|es|]; [done| |done].
    rewrite !walk_stay by done. apply Hw.
Qed.

Lemma path_resolve_child w p rel :
  path_resolve w (Path_child p rel)
  = match path_resolve w p with
    | Some (st, n) => walk st n rel
    | None => None
    end.
Proof.
  unfold path_resolve, Path_child; cbn [p_root p_parts].
  destruct (if String.eqb (p_root p) "" then _ else _)
    as [[st [f|es|]]|]; try done.
  apply walk_app.
Qed.

Lemma clean_Path_of s : clean (Path_of s).
Proof.
  split; cbn [Path_of p_root p_parts].
  - destruct (leading "/" s =? 0); [auto|]. destruct (leading "/" s =? 2); auto.
  - apply List.Forall_forall. intros x [Hin Hp]%filter_In.
    pose proof (split_pieces s) as Hall.
    rewrite List.Forall_forall in Hall. split; [|by apply Hall].
    unfold proper_part in Hp. intros ->. done.
Qed.

Lemma valid_name_spec x :
  valid_name x = true →
  x ≠ "" ∧ has_slash x = false ∧ proper_part x = true ∧ String.eqb x ".." = false.
Proof.
  unfold valid_name.
  intros [[Hp Hd]%andb_true_iff Hs]%andb_true_iff.
  apply negb_true_iff in Hd, Hs. repeat split; try done.
  intros ->. done.
Qed.

Lemma clean_child p rel :
  clean p → Forall (fun x => valid_name x = true) rel → clean (Path_child p rel).
Proof.
  intros [Hr Hp] Hrel. split; [done|]. cbn [Path_child p_parts].
  apply Forall_app. split; [done|].
  eapply Forall_impl; [exact Hrel|]. intros x Hx.
  by destruct (valid_name_spec x Hx) as (? & ? & _).
Qed.

(** A valid name is looked up among the entries of the directory. *)
Lemma walk_name st es x r :
  valid_name x = true →
  walk st (Dir es) (x :: r)
  = match lookup_entry x es with
    | Some child => walk ((x, Dir es) :: st) child r
    | None => None
    end.
Proof.
  intros (_ & _ & Hp & Hd)%valid_name_spec. cbn [walk].
  unfold proper_part in Hp. rewrite Hd.
  by destruct (String.eqb x ""), (String.eqb x ".").
Qed.

(** Through valid names [walk] descends as [node_at] does, and pushes
    the names on its stack. *)
Lemma walk_descend rel : ∀ st n,
  Forall (fun x => valid_name x = true) rel →
  snd <$> walk st n rel = node_at n rel
  ∧ ∀ st' c, walk st n rel = Some (st', c) →
             map fst st' = rev rel ++ map fst st.
Proof.
  induction rel as [|x r IH]; intros st n Hall.
  - split; [done|]. by intros st' c [= <- <-].
  - inversion_clear Hall as [|? ? Hx Hr].
    destruct n as [f|es|]; [done| |done].
    rewrite walk_name by done. cbn [node_at].
    destruct (lookup_entry x es) as [child|]; [|done].
    destruct (IH ((x, Dir es) :: st) child Hr) as [H1 H2].
    split; [done|]. intros st' c Hw. rewrite (H2 _ _ Hw).
    cbn [rev map fst]. by rewrite <- app_assoc.
Qed.

End Resolution.

(** ** Well-formed trees and the directory walk *)
Section Tree.

Lemma lookup_entry_In x es c : lookup_entry x es = Some c → In (x, c) es.
Proof.
  induction es as [|[n ch] es IH]; cbn; [done|].
  destruct (String.eqb_spec n x) as [->|]; [intros [= <-]|]; auto.
Qed.

Lemma member_In x l : member x l = true ↔ In x l.
Proof.
  unfold member. rewrite existsb_exists. split.
  - by intros (y & Hy & ->%String.eqb_eq).
  - intros Hin. exists x. split; [done|apply String.eqb_refl].
Qed.

Lemma In_lookup_entry x c es :
  distinct (map fst es) = true → In (x, c) es → lookup_entry x es = Some c.
Proof.
  induction es as [|[n ch] es IH]; cbn; [done|].
  intros [Hn Hd]%andb_true_iff [[= -> ->]|Hin].
  - by rewrite String.eqb_refl.
  - destruct (String.eqb_spec n x) as [->|]; [|auto].
    exfalso. apply negb_true_iff in Hn.
    assert (member x (map fst es) = true) as Hm; [|congruence].
    apply member_In, in_map_iff. by exists (x, c).
Qed.

Lemma wf_entry es x c :
  wf_node (Dir es) = true → In (x, c) es →
  valid_name x = true ∧ wf_node c = true.
Proof.
  cbn [wf_node]. intros [_ H]%andb_true_iff Hin.
  rewrite forallb_forall in H. specialize (H _ Hin).
  by apply andb_true_iff in H.
Qed.

Lemma wf_distinct es : wf_node (Dir es) = true → distinct (map fst es) = true.
Proof. cbn [wf_node]. by intros [? _]%andb_true_iff. Qed.

Lemma rglob_rel_In es rel :
  In rel (rglob_rel (Dir es))
  ↔ ∃ x c, In (x, c) es
           ∧ (rel = [x] ∨ ∃ r, rel = x :: r ∧ In r (rglob_rel c)).
Proof.
  cbn [rglob_rel]. rewrite in_app_iff, in_map_iff, in_flat_map. split.
  - intros [([x c] & <- & Hin) | ([x c] & Hin & Hr)].
    + exists x, c. auto.
    + apply in_map_iff in Hr as (r & <- & Hr). exists x, c. eauto.
  - intros (x & c & Hin & [-> | (r & -> & Hr)]).
    + left. by exists (x, c).
    + right. exists (x, c). split; [done|]. apply in_map_iff. eauto.
Qed.

(** The walk yields exactly the entries below the directory, at any
    depth. *)
Lemma rglob_rel_iff rel : ∀ n,
  wf_node n = true →
  In rel (rglob_rel n) ↔ rel ≠ [] ∧ is_Some (node_at n rel).
Proof.
  induction rel as [|x r IH]; intros n Hwf.
  - split; [|by intros [? _]]. destruct n as [f|es|]; [done| |done].
    by intros (x & c & _ & [?|(? & ? & _)])%rglob_rel_In.
  - destruct n as [f|es|];
      [split; [done|by intros [_ [? ?]]]| |split; [done|by intros [_ [? ?]]]].
    rewrite rglob_rel_In. cbn [node_at]. split.
    + intros (y & c & Hin & Hrel). split; [done|].
      destruct (wf_entry _ _ _ Hwf Hin) as [_ Hc].
      destruct Hrel as [[= -> ->] | (r' & [= -> ->] & Hr)];
        rewrite (In_lookup_entry _ _ _ (wf_distinct _ Hwf) Hin); [done|].
      by apply IH in Hr as [_ ?].
    + intros [_ Hs].
      destruct (lookup_entry x es) as [c|] eqn:El; [|by destruct Hs].
      apply lookup_entry_In in El.
      destruct (wf_entry _ _ _ Hwf El) as [_ Hc].
      exists x, c. split; [done|]. destruct r as [|y r]; [by left|right].
      eexists. split; [done|]. by apply IH.
Qed.

Lemma node_at_valid rel : ∀ n,
  wf_node n = true → is_Some (node_at n rel) →
  Forall (fun x => valid_name x = true) rel.
Proof.
  induction rel as [|x r IH]; intros n Hwf Hs; [done|].
  destruct n as [f|es|]; [by destruct Hs| |by destruct Hs].
  cbn [node_at] in Hs.
  destruct (lookup_entry x es) as [c|] eqn:El; [|by destruct Hs].
  apply lookup_entry_In in El.
  destruct (wf_entry _ _ _ Hwf El) as [Hx Hc].
  constructor; [done|]. by apply (IH c).
Qed.

Lemma walk_wf parts : ∀ st cur st' n,
  wf_node cur = true → Forall (fun e => wf_node (snd e) = true) st →
  walk st cur parts = Some (st', n) →
  wf_node n = true ∧ Forall (fun e => wf_node (snd e) = true) st'.
Proof.
  induction parts as [|x r IH]; intros st cur st' n Hc Hst.
  - by intros [= <- <-].
  - destruct cur as [f|es|]; [done| |done]. cbn [walk].
    destruct (String.eqb x "" || String.eqb x "."); [by apply IH|].
    destruct (String.eqb x "..").
    + destruct st as [|[y parent] st0]; [by apply IH|].
      inversion_clear Hst. by apply IH.
    + destruct (lookup_entry x es) as [c|] eqn:El; [|done].
      apply lookup_entry_In in El.
      destruct (wf_entry _ _ _ Hc El) as [_ Hwc].
      apply IH; [done|]. by constructor.
Qed.

Lemma os_resolve_wf w s st n :
  wf_node (w_root w) = true → os_resolve w s = Some (st, n) →
  wf_node n = true.
Proof.
  intros Hwf. unfold os_resolve. destruct (String.eqb s ""); [done|].
  destruct (is_absolute s).
  - intros Hw. by apply walk_wf in Hw as [? _].
  - destruct (walk [] (w_root w) (w_cwd w)) as [[st0 c0]|] eqn:E0; [|done].
    apply walk_wf in E0 as [? ?]; [|done..].
    intros Hw. by apply walk_wf in Hw as [? _].
Qed.

End Tree.

(** ** [collect_files] *)
Section Collect.

Lemma os_resolve_same w w' s : same_fs w w' → os_resolve w s = os_resolve w' s.
Proof. intros [Hr Hc]. unfold os_resolve. by rewrite Hr, Hc. Qed.

Lemma os_stat_same w w' s : same_fs w w' → os_stat w s = os_stat w' s.
Proof. intros H. unfold os_stat. by rewrite (os_resolve_same w w'). Qed.

Lemma is_dir_same w w' p : same_fs w w' → is_dir w p = is_dir w' p.
Proof. intros H. unfold is_dir. by rewrite (os_stat_same w w'). Qed.

Lemma is_file_same w w' p : same_fs w w' → is_file w p = is_file w' p.
Proof. intros H. unfold is_file. by rewrite (os_stat_same w w'). Qed.

Lemma rglob_same w w' p : same_fs w w' → rglob w p = rglob w' p.
Proof. intros H. unfold rglob. by rewrite (os_stat_same w w'). Qed.

Lemma expand_same w w' path : same_fs w w' → expand w path = expand w' path.
Proof.
  intros H. unfold expand.
  rewrite (is_dir_same w w'), (is_file_same w w'), (rglob_same w w') by done.
  destruct (is_dir w' _); [|done]. f_equal. apply filter_ext.
  intros p. by apply is_file_same.
Qed.

Lemma add_stderr_nil w : add_stderr [] w = w.
Proof. destruct w. unfold add_stderr. cbn. by rewrite app_nil_r. Qed.

Lemma add_stderr_add l1 l2 w :
  add_stderr l2 (add_stderr l1 w) = add_stderr (l1 ++ l2) w.
Proof. unfold add_stderr. cbn. by rewrite app_assoc. Qed.

Lemma put_stderr_add s w : put_stderr s w = add_stderr [s] w.
Proof. done. Qed.

Lemma same_fs_add_stderr l w : same_fs w (add_stderr l w).
Proof. done. Qed.

Lemma collect_fold w paths : ∀ l files,
  fold_left collect_step paths (add_stderr l w, files)
  = (add_stderr (l ++ map invalid_notice (List.filter (invalid w) paths)) w,
     files ++ flat_map (expand w) paths).
Proof.
  induction paths as [|path paths IH]; intros l files.
  - cbn. by rewrite !app_nil_r.
  - cbn [fold_left collect_step flat_map List.filter].
    unfold invalid at 1, expand at 1.
    rewrite <- !(is_dir_same w (add_stderr l w)),
            <- !(is_file_same w (add_stderr l w)),
            <- !(rglob_same w (add_stderr l w)) by done.
    assert (List.filter (is_file (add_stderr l w)) (rglob w (Path_of path))
            = List.filter (is_file w) (rglob w (Path_of path))) as ->.
    { apply filter_ext. intros p. symmetry. by apply is_file_same. }
    destruct (is_dir w (Path_of path)); [|destruct (is_file w (Path_of path))].
    + rewrite IH. by rewrite app_assoc.
    + rewrite IH. by rewrite app_assoc.
    + cbn [negb andb map]. unfold log_error.
      rewrite put_stderr_add, add_stderr_add, IH.
      by rewrite <- app_assoc.
Qed.

(** The list is the concatenation, in input order, of what each input
    contributes, and the only effect is one notice per invalid input. *)
Lemma collect_files_spec w paths :
  collect_files w paths
  = (add_stderr (map invalid_notice (List.filter (invalid w) paths)) w,
     flat_map (expand w) paths).
Proof.
  unfold collect_files. rewrite <- (add_stderr_nil w) at 1.
  by rewrite collect_fold.
Qed.

Lemma filter_map_swap {A B} (f : B → bool) (g : A → B) l :
  List.filter f (map g l) = map g (List.filter (fun x => f (g x)) l).
Proof.
  induction l as [|x l IH]; [done|]. cbn. destruct (f (g x)); cbn; by rewrite IH.
Qed.

(** The entry found for a path below a resolved path. *)
Lemma resolve_child w p rel st n :
  clean p → Forall (fun x => valid_name x = true) rel →
  os_resolve w (Path_str p) = Some (st, n) →
  os_resolve w (Path_str (Path_child p rel)) = walk st n rel.
Proof.
  intros Hp Hrel Hres.
  rewrite os_resolve_str by by apply clean_child.
  rewrite path_resolve_child, <- os_resolve_str by done. by rewrite Hres.
Qed.

(** What a directory contributes: the paths of the regular files
    found below it, in the order of the walk. *)
Lemma expand_dir w path st es :
  wf_node (w_root w) = true →
  os_resolve w (Path_str (Path_of path)) = Some (st, Dir es) →
  expand w path
  = map (fun rel => Path_str (Path_child (Path_of path) rel))
        (List.filter (fun rel => is_File (node_at (Dir es) rel))
                     (rglob_rel (Dir es))).
Proof.
  intros Hwf Hres. unfold expand, is_dir, rglob, os_stat. rewrite Hres. cbn.
  rewrite filter_map_swap, map_map. f_equal.
  apply filter_ext_in. intros rel Hin.
  pose proof (os_resolve_wf _ _ _ _ Hwf Hres) as Hd.
  apply (rglob_rel_iff rel _ Hd) in Hin as [_ Hs].
  pose proof (node_at_valid _ _ Hd Hs) as Hv.
  unfold is_file, os_stat.
  rewrite (resolve_child w _ rel st (Dir es) (clean_Path_of path) Hv Hres).
  destruct (walk_descend rel st (Dir es) Hv) as [-> _]. done.
Qed.

Lemma expand_dir_In w path st es s :
  wf_node (w_root w) = true →
  os_resolve w (Path_str (Path_of path)) = Some (st, Dir es) →
  In s (expand w path)
  ↔ ∃ rel f, node_at (Dir es) rel = Some (File f)
             ∧ s = Path_str (Path_child (Path_of path) rel).
Proof.
  intros Hwf Hres. rewrite (expand_dir w path st es) by done.
  pose proof (os_resolve_wf _ _ _ _ Hwf Hres) as Hd.
  rewrite in_map_iff. split.
  - intros (rel & <- & [Hin Hf]%filter_In).
    destruct (node_at (Dir es) rel) as [[f| |]|] eqn:E; try done. eauto.
  - intros (rel & f & Hn & ->). exists rel. split; [done|].
    apply filter_In. split; [|by rewrite Hn].
    apply rglob_rel_iff; [done|]. split; [|by rewrite Hn].
    intros ->. done.
Qed.

(** Everything [collect_files] returns names a regular file. *)
Lemma expand_files w path s :
  In s (expand w path) → ∃ f, os_stat w s = Some (File f).
Proof.
  unfold expand.
  destruct (is_dir w (Path_of path)).
  - intros (p & <- & [_ Hf]%filter_In)%in_map_iff. unfold is_file in Hf.
    destruct (os_stat w (Path_str p)) as [[f| |]|]; try done. eauto.
  - destruct (is_file w (Path_of path)) eqn:Hf; [|done].
    intros [<-|[]]. unfold is_file in Hf.
    destruct (os_stat w _) as [[f| |]|]; try done. eauto.
Qed.

Lemma leading_strip s : strip_root s = s → leading "/" s = 0.
Proof.
  destruct s as [|c t]; [done|]. cbn.
  destruct (Ascii.eqb c "/") eqn:E; [|done].
  intros H. apply (f_equal String.length) in H. cbn in H. lia.
Qed.

Lemma plain_leading t : plain t = true → leading "/" (strip_root t) = 0.
Proof.
  unfold plain. destruct (strip_root t) as [|c r]; [done|]. cbn [leading].
  destruct (Ascii.eqb c "/") eqn:E; [|done].
  cbn [split]. rewrite E. done.
Qed.

(** A plain path is its own normal form. *)
Lemma plain_str s : plain s = true → Path_str (Path_of s) = s.
Proof.
  intros Hp. pose proof (plain_leading s Hp) as Hl.
  assert (List.filter proper_part (split "/" (strip_root s))
          = split "/" (strip_root s)) as Hf.
  { apply forallb_filter_id. exact Hp. }
  assert (strip_root s ≠ "") as Hne.
  { unfold plain in Hp. by destruct (strip_root s). }
  destruct s as [|c t]; [done|]. cbn [strip_root] in *.
  destruct (Ascii.eqb c "/") eqn:E.
  - apply Ascii.eqb_eq in E as ->.
    unfold Path_of, Path_str. cbn [leading p_root p_parts].
    change (Ascii.eqb "/" "/") with true. cbn match. rewrite Hl.
    rewrite split_slash. cbn [List.filter proper_part String.eqb negb andb].
    rewrite Hf, join_split. done.
  - unfold Path_of, Path_str. rewrite Hl. cbn [p_root p_parts Nat.eqb].
    rewrite Hf, join_split, append_nil. done.
Qed.

End Collect.

(** ** The loop of [main] *)
Section Loop.
Import Digest.

Lemma append_assoc s1 s2 s3 : (s1 +:+ s2) +:+ s3 = s1 +:+ s2 +:+ s3.
Proof.
  induction s1 as [|c s1 IH]; [done|]. by rewrite !append_cons, IH.
Qed.

Lemma append_empty s : s +:+ "" = s.
Proof. induction s as [|c s IH]; [done|]. by rewrite append_cons, IH. Qed.

Lemma text_of_cons x l : text_of (x :: l) = x +:+ text_of l.
Proof. done. Qed.

Lemma text_of_app l1 l2 : text_of (l1 ++ l2) = text_of l1 +:+ text_of l2.
Proof.
  induction l1 as [|x l1 IH]; [done|].
  unfold text_of in *. cbn [app fold_right]. by rewrite IH, append_assoc.
Qed.

Lemma append_text_twice s1 s2 out (d : gmap string target) :
  alter (append_text s2) out (alter (append_text s1) out d)
  = alter (append_text (s1 +:+ s2)) out d.
Proof.
  apply map_eq. intros k. destruct (decide (out = k)) as [<-|Hne].
  - rewrite !lookup_alter_eq.
    destruct (d !! out) as [[t|]|]; cbn; [|done..]. by rewrite append_assoc.
  - by rewrite !lookup_alter_ne.
Qed.

Lemma append_text_nothing out (d : gmap string target) :
  alter (append_text "") out d = d.
Proof.
  apply alter_id. intros [t|] _; cbn; [|done]. by rewrite append_empty.
Qed.

Lemma contents_same w w' file : same_fs w w' → contents w file = contents w' file.
Proof. intros H. unfold contents. by rewrite (os_stat_same w w'). Qed.

Lemma failure_notice_same w w' file :
  same_fs w w' → failure_notice w file = failure_notice w' file.
Proof.
  intros H. unfold failure_notice, failure. by rewrite (os_stat_same w w').
Qed.

Variable e : env.
Variable args : namespace.
Variable alg : algorithm.
Hypothesis supported : ∃ name, dict_get HASH_ALGOS name = Some alg.
Variable total : nat.
Variable w0 : world.

(** One turn of the loop. *)
Lemma hash_all_cons file rest i w :
  same_fs w0 w →
  hash_all e args alg total i (file :: rest) w
  = hash_all e args alg total (S i) rest
      (let w1 := note_open file
                   (print ("[" +:+ str_nat i +:+ "/" +:+ str_nat total
                           +:+ "] Processing: " +:+ file) w) in
       match record e (n_algo args) alg w0 i file with
       | Some line =>
           put_stdout line
             (write (n_output args) line
                (log_info ("Hashed '" +:+ file +:+ "'") w1))
       | None => put_stderr (failure_notice w0 file) w1
       end).
Proof.
  intros Hfs. cbn [hash_all]. rewrite hash_file_spec.
  set (w1 := print _ w).
  assert (same_fs w0 w1) as Hfs1 by done.
  rewrite <- (contents_same w0 w1), <- (failure_notice_same w0 w1) by done.
  unfold record. destruct (contents w0 file) as [data|] eqn:Ec; [|done].
  assert (truthy (Some (hash_bytes alg data)) = true) as ->.
  { destruct supported as [name Hn]. cbn.
    apply negb_true_iff, String.eqb_neq.
    by apply (AlgoFacts.supported_nonempty name). }
  cbn [negb default]. unfold getcwd. destruct Hfs as [_ ->]. done.
Qed.

(** The loop hashes every file of its list, in order, whatever happened
    to the files before: it opens each once, prints its progress, writes
    the records of the files it could read and a notice for each of the
    others, and ends normally. *)
Lemma hash_all_spec files : ∀ i w,
  same_fs w0 w →
  let r := hash_all e args alg total i files w in
  r.2 = Ok tt
  ∧ same_fs w0 r.1
  ∧ w_dest r.1
    = alter (append_text (text_of (records e (n_algo args) alg w0 i files)))
            (n_output args) (w_dest w)
  ∧ w_stdout r.1
    = w_stdout w ++ console e (n_algo args) alg w0 total i files
  ∧ w_stderr r.1 = w_stderr w ++ notices w0 files
  ∧ w_opens r.1 = w_opens w ++ files.
Proof.
  induction files as [|file rest IH]; intros i w Hfs r.
  - subst r. cbn. rewrite append_text_nothing, !app_nil_r. done.
  - subst r. rewrite hash_all_cons by done.
    cbn [records console notices]. unfold record.
    destruct (contents w0 file) as [data|]; cbn zeta;
      (match goal with |- context [hash_all _ _ _ _ _ _ ?w'] =>
         destruct (IH (S i) w') as (H2 & Hs & Hd & Ho & He & Hp); [done|] end);
      rewrite H2, Hd, Ho, He, Hp; (split; [done|]); (split; [done|]).
    + change (option_list (Some ?x) ++ ?l) with (x :: l).
      rewrite text_of_cons, <- append_text_twice. cbn. by rewrite <- !app_assoc.
    + cbn. by rewrite <- !app_assoc.
Qed.

End Loop.

(** ** [main] *)
Section Main.

Lemma member_keys {A} (d : list (string * A)) name :
  member name (dict_keys d) = true ↔ is_Some (dict_get d name).
Proof.
  induction d as [|[k v] d IH]; cbn.
  - split; [done|by intros [? ?]].
  - rewrite (String.eqb_sym name k). destruct (String.eqb k name); cbn.
    + split; [by eexists|done].
    + exact IH.
Qed.

Lemma parse_args_Ok e w a w' args :
  parse_args e w a = (w', Ok args) →
  w' = w ∧ n_paths args = a_paths a ∧ a_paths a ≠ []
  ∧ n_algo args = default "sha256" (a_algo a)
  ∧ n_output args = default ("hasher-" +:+ e_today e +:+ ".txt") (a_output a)
  ∧ is_Some (dict_get HASH_ALGOS (n_algo args)).
Proof.
  unfold parse_args.
  destruct (member _ (dict_keys HASH_ALGOS)) eqn:Em; cbn [negb]; [|done].
  destruct (a_paths a) as [|p ps] eqn:Ep; [done|].
  intros [= <- <-]. cbn [n_paths n_algo n_output]. repeat split; try done.
  by apply member_keys.
Qed.

Lemma parse_args_Raise e w a w' x :
  parse_args e w a = (w', Raise x) →
  x = SystemExit 2 ∧ ∃ msg, w' = put_stderr msg w.
Proof.
  unfold parse_args.
  destruct (member _ (dict_keys HASH_ALGOS)); cbn [negb].
  - destruct (a_paths a); [|done]. intros [= <- <-]. eauto.
  - intros [= <- <-]. eauto.
Qed.

Lemma log_text_open w out out' :
  w_dest w !! out ≠ Some Refused →
  (open_append w out).2 = Ok tt
  ∧ log_text (open_append w out).1 out' = log_text w out'
  ∧ is_Some (w_dest (open_append w out).1 !! out)
  ∧ w_opens (open_append w out).1 = w_opens w ++ [out]
  ∧ w_stdout (open_append w out).1 = w_stdout w
  ∧ w_stderr (open_append w out).1 = w_stderr w
  ∧ same_fs w (open_append w out).1.
Proof.
  intros Hd. unfold open_append, log_text.
  destruct (w_dest w !! out) as [[t|]|] eqn:E; [| done |]; cbn.
  - rewrite E. repeat split; eauto.
  - repeat split; try done.
    + destruct (decide (out = out')) as [<-|Hne].
      * by rewrite lookup_insert_eq, E.
      * by rewrite lookup_insert_ne.
    + rewrite lookup_insert_eq. eauto.
Qed.

Lemma log_text_write w s out out' :
  is_Some (w_dest w !! out) → w_dest w !! out ≠ Some Refused →
  log_text (set_dest (alter (append_text s) out (w_dest w)) w) out'
  = log_text w out' +:+ (if decide (out' = out) then s else "").
Proof.
  intros [t Ht] Hr. unfold log_text. cbn [set_dest w_dest].
  destruct (decide (out' = out)) as [->|Hne].
  - rewrite lookup_alter_eq, Ht. destruct t; [done|congruence].
  - rewrite lookup_alter_ne by done.
    by destruct (w_dest w !! out') as [[?|]|]; rewrite ?append_empty.
Qed.

(** A run that gets past the parser, finds files and can open its log:
    what it leaves behind. *)
Lemma main_completes e w a args alg :
  parse_args e w a = (w, Ok args) →
  dict_get HASH_ALGOS (n_algo args) = Some alg →
  flat_map (expand w) (n_paths args) ≠ [] →
  w_dest w !! n_output args ≠ Some Refused →
  let files := flat_map (expand w) (n_paths args) in
  let r := main e w a in
  r.2 = Ok tt
  ∧ same_fs w r.1
  ∧ (∀ out, log_text r.1 out
            = log_text w out
              +:+ (if decide (out = n_output args)
                   then text_of (records e (n_algo args) alg w 1 files)
                   else ""))
  ∧ w_stdout r.1
    = w_stdout w ++ console e (n_algo args) alg w (length files) 1 files
  ∧ w_stderr r.1
    = w_stderr w
      ++ map invalid_notice (List.filter (invalid w) (n_paths args))
      ++ notices w files
  ∧ w_opens r.1 = w_opens w ++ n_output args :: files
  ∧ ∃ t, w_dest r.1 !! n_output args = Some (Appendable t).
Proof.
  intros Hp Ha Hne Hd files r. subst r. unfold main.
  rewrite Hp, Ha, collect_files_spec. fold files.
  destruct files as [|f0 fs] eqn:Ef; [done|]. rewrite <- Ef. clear Ef f0 fs.
  set (wc := add_stderr _ w).
  assert (w_dest wc !! n_output args ≠ Some Refused) as Hd' by done.
  destruct (log_text_open wc (n_output args) (n_output args) Hd')
    as (Ho & _ & Hsome & Hopens & Hout & Herr & Hfs).
  destruct (open_append wc (n_output args)) as [wo ro] eqn:Eo.
  cbn [fst snd] in *. subst ro.
  assert (same_fs w wo) as Hfs' by (destruct Hfs; split; etrans; done).
  destruct (hash_all_spec e args alg (ex_intro _ _ Ha) (length files) w files
              1 wo Hfs') as (H2 & Hs & Hdest & Hstd & Hste & Hop).
  assert (w_dest wo !! n_output args ≠ Some Refused) as Hnr.
  { intros Hr. unfold open_append in Eo.
    destruct (w_dest wc !! n_output args) as [[t|]|] eqn:E;
      [| done |]; injection Eo as <-; cbn in Hr.
    - congruence.
    - by rewrite lookup_insert_eq in Hr. }
  split; [done|]. split; [done|]. split; [|split; [|split; [|split]]].
  - intros out. unfold log_text at 1. rewrite Hdest.
    pose proof (log_text_write wo
      (text_of (records e (n_algo args) alg w 1 files)) (n_output args) out
      Hsome) as Hw.
    unfold log_text at 1 in Hw. cbn [set_dest w_dest] in Hw. rewrite Hw.
    + f_equal. pose proof (log_text_open wc (n_output args) out Hd') as (_ & Hl & _).
      rewrite Eo in Hl. cbn [fst] in Hl. by rewrite Hl.
    + done.
  - by rewrite Hstd, Hout.
  - rewrite Hste, Herr. subst wc. cbn. by rewrite <- app_assoc.
  - rewrite Hop, Hopens. subst wc. cbn. by rewrite <- app_assoc.
  - rewrite Hdest, lookup_alter_eq. destruct Hsome as [[t|] Ht]; [|done].
    rewrite Ht. cbn. eauto.
Qed.

(** The four ways a run can go. *)
Lemma main_cases e w a :
  (∃ msg, main e w a = (put_stderr msg w, Raise (SystemExit 2)))
  ∨ (∃ args, parse_args e w a = (w, Ok args)
      ∧ flat_map (expand w) (n_paths args) = []
      ∧ main e w a
        = (log_error "No valid files found."
             (add_stderr
                (map invalid_notice (List.filter (invalid w) (n_paths args)))
                w),
           Raise (SystemExit 1)))
  ∨ (∃ args, parse_args e w a = (w, Ok args)
      ∧ flat_map (expand w) (n_paths args) ≠ []
      ∧ w_dest w !! n_output args = Some Refused
      ∧ main e w a
        = (note_open (n_output args)
             (add_stderr
                (map invalid_notice (List.filter (invalid w) (n_paths args)))
                w),
           Raise (OSError 13 "Permission denied" (Some (n_output args)))))
  ∨ (∃ args alg, parse_args e w a = (w, Ok args)
      ∧ dict_get HASH_ALGOS (n_algo args) = Some alg
      ∧ flat_map (expand w) (n_paths args) ≠ []
      ∧ w_dest w !! n_output args ≠ Some Refused
      ∧ (main e w a).2 = Ok tt).
Proof.
  destruct (parse_args e w a) as [w' [args|x]] eqn:Ep.
  - destruct (parse_args_Ok _ _ _ _ _ Ep) as (-> & _ & _ & _ & _ & [alg Ha]).
    right.
    destruct (flat_map (expand w) (n_paths args)) as [|f0 fs] eqn:Ef.
    + left. exists args. split; [done|]. split; [done|].
      unfold main. by rewrite Ep, Ha, collect_files_spec, Ef.
    + right.
      assert (w_dest w !! n_output args = Some Refused
              ∨ w_dest w !! n_output args ≠ Some Refused) as [Hr|Hr].
      { destruct (w_dest w !! n_output args) as [[t|]|]; auto. }
      * left. exists args. split; [done|]. split; [by rewrite Ef|].
        split; [done|].
        unfold main. rewrite Ep, Ha, collect_files_spec, Ef.
        unfold open_append. cbn [add_stderr w_dest]. by rewrite Hr.
      * right. exists args, alg. split; [done|]. split; [done|].
        split; [by rewrite Ef|]. split; [done|].
        by apply (main_completes e w a args alg); [..|rewrite Ef|].
  - left. destruct (parse_args_Raise _ _ _ _ _ Ep) as (-> & msg & ->).
    exists msg. unfold main. by rewrite Ep.
Qed.

End Main.

(** * The properties of the specification *)

(** C5: for every file contents and every algorithm (so for each of the
    three supported ones), feeding the contents to the digest object one
    byte at a time leaves it in the same state, and so gives the same
    hexadecimal digest, as feeding it 8192 bytes at a time: the digest of
    the whole contents.  Hence [hash_file] reading one byte at a time, or
    any positive number of bytes at a time, behaves as [hash_file] itself
    on every path. *)
Theorem chunking_independence (alg : Digest.algorithm) (data : list byte) :
  let f := {| hd_rest := data; hd_bad := None |} in
  read_loop (S (length data)) 1 (Digest.new alg) f
  = read_loop (S (length data)) CHUNK (Digest.new alg) f
  ∧ (∃ h, read_loop (S (length data)) CHUNK (Digest.new alg) f = Ok h
          ∧ Digest.hexdigest h = Digest.hash_bytes alg data)
  ∧ (∀ w path, hash_file_sized 1 w path alg = hash_file w path alg)
  ∧ ∀ size w path,
      0 < size → hash_file_sized size w path alg = hash_file w path alg.
Proof.
  intros f. subst f.
  pose proof (DigestFacts.short_new alg) as Hs.
  rewrite (read_loop_ok 1), (read_loop_ok CHUNK);
    [|apply CHUNK_pos|lia|done|done|lia|lia|done|done].
  split; [done|]. split; [by eexists|].
  assert (∀ size w path,
            0 < size → hash_file_sized size w path alg = hash_file w path alg)
    as Hany.
  { intros size w path Hsize. unfold hash_file.
    rewrite (hash_file_sized_spec size), (hash_file_sized_spec CHUNK);
      [done|apply CHUNK_pos|done]. }
  split; [|done]. intros w path. apply Hany. lia.
Qed.

(** C6: hashing an empty file that can be opened succeeds with each
    supported algorithm and gives the digest published for the empty
    message; with SHA-256 it is the 64-character constant
    e3b0c442...7852b855. *)
Theorem empty_file_digest (w : world) (path : string) (f : file)
    (name : string) (alg : Digest.algorithm) :
  os_stat w path = Some (File f) → f_data f = [] → f_perm f = true →
  dict_get HASH_ALGOS name = Some alg →
  ∃ d, dict_get EMPTY_DIGESTS name = Some d
       ∧ (hash_file w path alg).2 = Ok (Some d)
       ∧ (name = "sha256" →
          d = "e3b0c44298fc1c149afbf4c8996fb92427ae41e4649b934ca495991b7852b855"
          ∧ String.length d = 64).
Proof.
  intros Hst Hdata Hperm Halg.
  assert (contents w path = Some []) as Hc.
  { unfold contents, fault_free. rewrite Hst, Hperm, Hdata.
    by destruct (f_bad f). }
  rewrite hash_file_spec, Hc. cbn [snd].
  apply AlgoFacts.HASH_ALGOS_cases in Halg as [[-> ->]|[[-> ->]|[-> ->]]].
  - eexists. split; [reflexivity|]. split; [by vm_compute|]. by intros _.
  - eexists. split; [reflexivity|]. split; [by vm_compute|]. by intros [=].
  - eexists. split; [reflexivity|]. split; [by vm_compute|]. by intros [=].
Qed.

Lemma empty_file_digest_witness :
  os_stat Sample.machine "d/b.txt" = Some (Sample.text_file "")
  ∧ ∃ d, dict_get EMPTY_DIGESTS "sha256" = Some d
         ∧ (hash_file Sample.machine "d/b.txt" Digest.Sha256.alg).2
           = Ok (Some d)
         ∧ ("sha256" = "sha256" →
            d = "e3b0c44298fc1c149afbf4c8996fb92427ae41e4649b934ca495991b7852b855"
            ∧ String.length d = 64).
Proof.
  split; [reflexivity|].
  apply (empty_file_digest Sample.machine "d/b.txt"
           {| f_data := []; f_perm := true; f_bad := None |});
    reflexivity.
Defined.

(** C9: [hash_file] always returns: every error raised while the file is
    opened and read is an [Exception], the handler turns it into [None]
    and a notice, and the result is the hexadecimal digest of the contents
    exactly when the file could be opened and read to its end.  In
    particular an unreadable byte in the middle of the file gives
    [None]. *)
Theorem hash_file_total (w : world) (path : string) (alg : Digest.algorithm) :
  match (hash_try CHUNK w path (Digest.new alg)).2 with
  | Raise x => is_Exception x = true
  | Ok _ => True
  end
  ∧ (hash_file w path alg).2 = Ok (Digest.hash_bytes alg <$> contents w path)
  ∧ w_stderr (hash_file w path alg).1
    = w_stderr w ++ match contents w path with
                    | Some _ => []
                    | None => [failure_notice w path]
                    end
  ∧ ∀ f k, os_stat w path = Some (File f) → f_bad f = Some k →
           k < length (f_data f) → (hash_file w path alg).2 = Ok None.
Proof.
  rewrite hash_try_spec by apply CHUNK_pos. rewrite hash_file_spec.
  split; [|split; [|split]].
  - cbn [snd]. destruct (contents w path); [done|apply failure_is_Exception].
  - by destruct (contents w path).
  - destruct (contents w path); cbn; [by rewrite app_nil_r|done].
  - intros f k Hst Hbad Hk.
    assert (contents w path = None) as ->; [|done].
    unfold contents, fault_free. rewrite Hst, Hbad.
    destruct (Nat.leb_spec (length (f_data f)) k); [lia|].
    by rewrite andb_false_r.
Qed.

(** C4: a run whose [--algo] value is none of [sha256], [sha1], [md5]
    ends at the parser with exit status 2: one message goes to the error
    stream, whatever the number of paths, and nothing else happens (no
    call to [open], no log created or written, nothing printed). *)
Theorem unsupported_algorithm_rejected (e : env) (w : world) (a : argv)
    (name : string) :
  a_algo a = Some name → ¬ In name (dict_keys HASH_ALGOS) →
  dict_keys HASH_ALGOS = ["sha256"; "sha1"; "md5"]
  ∧ (main e w a).2 = Raise (SystemExit 2)
  ∧ exit_status (main e w a).2 = 2
  ∧ w_opens (main e w a).1 = w_opens w
  ∧ w_dest (main e w a).1 = w_dest w
  ∧ w_stdout (main e w a).1 = w_stdout w
  ∧ ∃ msg, w_stderr (main e w a).1 = w_stderr w ++ [msg].
Proof.
  intros Ha Hn. split; [done|].
  assert (member name (dict_keys HASH_ALGOS) = false) as Hm.
  { apply not_true_is_false. by rewrite member_In. }
  unfold main, parse_args. rewrite Ha.
  change (default "sha256" (Some name)) with name. rewrite Hm.
  cbn [negb fst snd exit_status put_stderr w_opens w_dest w_stdout w_stderr].
  repeat split; try done. by eexists.
Qed.

Lemma unsupported_algorithm_rejected_witness :
  let a := {| a_paths := ["a.txt"; "d"]; a_output := None;
              a_algo := Some "sha512" |} in
  exit_status (main Sample.surroundings Sample.machine a).2 = 2
  ∧ w_opens (main Sample.surroundings Sample.machine a).1 = [].
Proof.
  intros a.
  destruct (unsupported_algorithm_rejected Sample.surroundings Sample.machine
              a "sha512" eq_refl) as (_ & _ & H2 & Ho & _).
  - cbn. intros [H|[H|[H|[]]]]; discriminate H.
  - split; [exact H2|exact Ho].
Defined.

(** C3: a run whose list of files is empty after collection reports
    "No valid files found." and exits with status 1; the log is neither
    opened nor created nor written. *)
Theorem empty_file_list_exits_1 (e : env) (w : world) (a : argv)
    (args : namespace) :
  parse_args e w a = (w, Ok args) →
  (collect_files w (n_paths args)).2 = [] →
  (main e w a).2 = Raise (SystemExit 1)
  ∧ exit_status (main e w a).2 = 1
  ∧ w_dest (main e w a).1 = w_dest w
  ∧ w_opens (main e w a).1 = w_opens w
  ∧ last (w_stderr (main e w a).1)
    = Some (RED +:+ "[ERROR]" +:+ NC +:+ " " +:+ "No valid files found." +:+ nl).
Proof.
  intros Hp Hf. rewrite collect_files_spec in Hf. cbn [snd] in Hf.
  destruct (main_cases e w a)
    as [[msg Hm]|[(args' & Hp' & _ & Hm)
                 |[(args' & Hp' & Hne & _)|(args' & alg & Hp' & _ & Hne & _)]]].
  - unfold main in Hm. rewrite Hp in Hm.
    destruct (dict_get _ _); [|done]. rewrite collect_files_spec, Hf in Hm.
    done.
  - rewrite Hm. cbn. repeat split; try done. by rewrite last_snoc.
  - rewrite Hp in Hp'. by injection Hp' as <-.
  - rewrite Hp in Hp'. by injection Hp' as <-.
Qed.

Lemma empty_file_list_exits_1_witness :
  (collect_files Sample.machine ["void"]).2 = []
  ∧ exit_status
      (main Sample.surroundings Sample.machine (Sample.command ["void"])).2 = 1
  ∧ w_dest (main Sample.surroundings Sample.machine
              (Sample.command ["void"])).1 = ∅.
Proof.
  split; [reflexivity|].
  destruct (empty_file_list_exits_1 Sample.surroundings Sample.machine
              (Sample.command ["void"])
              {| n_paths := ["void"]; n_output := "out.log";
                 n_algo := "sha256" |} eq_refl eq_refl)
    as (_ & H1 & Hd & _).
  split; [exact H1|exact Hd].
Defined.


Lemma console_progress e algo alg w total files : ∀ i k file,
  files !! k = Some file →
  In (("[" +:+ str_nat (i + k) +:+ "/" +:+ str_nat total +:+ "] Processing: "
       +:+ file) +:+ nl)
     (console e algo alg w total i files).
Proof.
  induction files as [|f rest IH]; intros i k file Hk; [done|].
  cbn [console]. destruct k as [|k].
  - injection Hk as ->. rewrite Nat.add_0_r. by left.
  - right. apply in_or_app. right.
    replace (i + S k) with (S i + k) by lia. by apply IH.
Qed.




Lemma line_count_app s t : line_count (s +:+ t) = line_count s + line_count t.
Proof.
  induction s as [|c s IH]; [done|].
  rewrite append_cons. cbn [line_count]. rewrite IH. lia.
Qed.

Lemma line_count_log_line now file algo h t cwd :
  line_count (log_line now file algo h t cwd)
  = 1 + line_count now + line_count file + line_count algo + line_count h
    + line_count t + line_count cwd.
Proof.
  unfold log_line. rewrite !line_count_app. cbn. lia.
Qed.

Lemma line_count_text_of l :
  Forall (fun r => line_count r = 1) l → line_count (text_of l) = length l.
Proof.
  induction 1 as [|r l Hr _ IH]; [done|].
  rewrite text_of_cons, line_count_app, Hr, IH. done.
Qed.





Lemma is_file_not_dir w p : is_file w p = true → is_dir w p = false.
Proof.
  unfold is_file, is_dir. by destruct (os_stat w (Path_str p)) as [[| |]|].
Qed.



Lemma count_flat_map {A B} (P : B → bool) (f : A → list B) l x :
  In x l →
  length (List.filter P (f x)) ≤ length (List.filter P (flat_map f l)).
Proof.
  induction l as [|a l IH]; [done|]. cbn [flat_map].
  rewrite List.filter_app, length_app. intros [->|Hin]; [lia|].
  specialize (IH Hin). lia.
Qed.

Lemma count_flat_map_two {A B} (P : B → bool) (f : A → list B) l x y :
  x ≠ y → In x l → In y l →
  length (List.filter P (f x)) + length (List.filter P (f y))
  ≤ length (List.filter P (flat_map f l)).
Proof.
  intros Hxy. induction l as [|a l IH]; [done|]. cbn [flat_map].
  rewrite List.filter_app, length_app. intros [->|Hx] [->|Hy].
  - done.
  - pose proof (count_flat_map P f l y Hy). lia.
  - pose proof (count_flat_map P f l x Hx). lia.
  - specialize (IH Hx Hy). lia.
Qed.

Lemma count_In {B} (P : B → bool) l s :
  In s l → P s = true → 1 ≤ length (List.filter P l).
Proof.
  intros Hin Hp.
  assert (In s (List.filter P l)) as Hf by by apply filter_In.
  destruct (List.filter P l); [done|cbn; lia].
Qed.

Lemma count_occ_flat_map (f : string → list string) l x y :
  f x = [y] →
  count_occ string_dec l x ≤ count_occ string_dec (flat_map f l) y.
Proof.
  intros Hf. induction l as [|a l IH]; [done|]. cbn [flat_map count_occ].
  rewrite count_occ_app. destruct (string_dec a x) as [->|Hne]; [|lia].
  rewrite Hf. cbn. destruct (string_dec y y); [lia|done].
Qed.

Lemma records_length e algo alg w files : ∀ i,
  length (records e algo alg w i files)
  = length (List.filter (readable w) files).
Proof.
  induction files as [|f rest IH]; intros i; [done|].
  cbn [records List.filter]. rewrite length_app, IH. unfold record, readable.
  by destruct (contents w f) as [data|].
Qed.



(** * Further properties of the code *)

(** ** The shape of a digest *)
Section DigestShape.
Import Word32 Digest.

Lemma to_be_length n : ∀ z, length (to_be n z) = n.
Proof.
  induction n as [|n IH]; intros z; [done|].
  cbn [to_be]. rewrite length_app, IH. cbn. lia.
Qed.

Lemma mjoin_length_const {A B} (f : A → list B) k (l : list A) :
  (∀ x, length (f x) = k) → length (mjoin (f <$> l)) = k * length l.
Proof.
  intros Hf. induction l as [|x l IH]; [cbn; lia|].
  change (mjoin (f <$> x :: l)) with (f x ++ mjoin (f <$> l)).
  rewrite length_app, Hf, IH. cbn [length]. lia.
Qed.

Lemma hex_byte_lower b : forallb is_hex_lower (hex_byte b) = true.
Proof. destruct b; reflexivity. Qed.

Lemma hexdigest_length h : String.length (hexdigest h) = 2 * length (digest h).
Proof.
  unfold hexdigest.
  assert (∀ l, String.length (string_of_list_ascii l) = length l) as ->.
  { induction l as [|c l IH]; cbn; [done|by rewrite IH]. }
  by apply mjoin_length_const.
Qed.

Lemma hexdigest_lower h :
  forallb is_hex_lower (list_ascii_of_string (hexdigest h)) = true.
Proof.
  unfold hexdigest. rewrite list_ascii_of_string_of_list_ascii.
  induction (digest h) as [|b l IH]; [done|].
  change (mjoin (hex_byte <$> b :: l))
    with (hex_byte b ++ mjoin (hex_byte <$> l)).
  by rewrite forallb_app, IH, hex_byte_lower.
Qed.

(** The digest of a supported algorithm has four bytes per word of the
    chaining value. *)
Lemma digest_length name a data :
  dict_get HASH_ALGOS name = Some a →
  Some (2 * length (digest (update (new a) data))) = dict_get HEX_LENGTHS name.
Proof.
  intros Ha. unfold digest. set (h := update (new a) data).
  assert (h_alg h = a) as -> by done.
  assert (∀ n, steady a n → length (h_state h) = n) as Hst.
  { intros n Hs. apply (AlgoFacts.update_keeps a); [done..|].
    by destruct Hs. }
  apply AlgoFacts.HASH_ALGOS_cases in Ha as [[-> ->]|[[-> ->]|[-> ->]]].
  - cbn [alg_output Sha256.alg].
    rewrite (mjoin_length_const _ 4) by apply to_be_length.
    rewrite (AlgoFacts.absorb_keeps _ 8);
      [done|apply AlgoFacts.steady_sha256|].
    apply Hst, AlgoFacts.steady_sha256.
  - cbn [alg_output Sha1.alg].
    rewrite (mjoin_length_const _ 4) by apply to_be_length.
    rewrite (AlgoFacts.absorb_keeps _ 5);
      [done|apply AlgoFacts.steady_sha1|].
    apply Hst, AlgoFacts.steady_sha1.
  - cbn [alg_output Md5.alg].
    rewrite (mjoin_length_const _ 4);
      [|intros z; unfold to_le; by rewrite length_rev, to_be_length].
    rewrite (AlgoFacts.absorb_keeps _ 4);
      [done|apply AlgoFacts.steady_md5|].
    apply Hst, AlgoFacts.steady_md5.
Qed.

End DigestShape.

(** X1: whenever [hash_file] returns a digest for one of the algorithms
    of [HASH_ALGOS], it is a string of 64 (sha256), 40 (sha1) or 32 (md5)
    lowercase hexadecimal digits; so it is never empty and the test
    [if not hash_val] of [main] skips a file only when [hash_file]
    returned [None]. *)
Theorem hash_file_digest_shape (w : world) (path name : string)
    (alg : Digest.algorithm) (d : string) :
  dict_get HASH_ALGOS name = Some alg →
  (hash_file w path alg).2 = Ok (Some d) →
  dict_get HEX_LENGTHS name = Some (String.length d)
  ∧ forallb is_hex_lower (list_ascii_of_string d) = true
  ∧ truthy (Some d) = true.
Proof.
  intros Ha. rewrite hash_file_spec.
  destruct (contents w path) as [data|]; [|done]. intros [= <-].
  unfold Digest.hash_bytes.
  rewrite hexdigest_length, <- (digest_length name alg data Ha).
  split; [done|]. split; [apply hexdigest_lower|].
  cbn. apply negb_true_iff, String.eqb_neq.
  by apply (AlgoFacts.supported_nonempty name).
Qed.

Lemma hash_file_digest_shape_witness :
  (hash_file Sample.machine "a.txt" Digest.Sha1.alg).2
  = Ok (Some "a9993e364706816aba3e25717850c26c9cd0d89d")
  ∧ dict_get HEX_LENGTHS "sha1" = Some 40
  ∧ forallb is_hex_lower
      (list_ascii_of_string "a9993e364706816aba3e25717850c26c9cd0d89d") = true.
Proof.
  split; [by vm_compute|].
  destruct (hash_file_digest_shape Sample.machine "a.txt" "sha1"
              Digest.Sha1.alg "a9993e364706816aba3e25717850c26c9cd0d89d"
              eq_refl) as (Hl & Hh & _).
  - by vm_compute.
  - split; [exact Hl|exact Hh].
Defined.

(** ** Whole runs *)
Section Runs.

Lemma parse_args_bad e w a :
  parse_args e w a
  = if bad_args a then
      ((parse_args e w a).1, Raise (SystemExit 2))
    else
      (w, Ok {| n_paths := a_paths a; n_output := output_name e a;
                n_algo := default "sha256" (a_algo a) |}).
Proof.
  unfold parse_args, bad_args, output_name.
  destruct (negb (member _ _)); [done|]. by destruct (a_paths a).
Qed.

Lemma parse_args_good e w a args :
  parse_args e w a = (w, Ok args) →
  bad_args a = false
  ∧ args = {| n_paths := a_paths a; n_output := output_name e a;
              n_algo := default "sha256" (a_algo a) |}.
Proof.
  rewrite parse_args_bad. destruct (bad_args a); [done|]. by intros [= <-].
Qed.

(** A run that reaches the loop is the loop, started once the notices of
    the invalid paths are out and the log is open. *)
Lemma main_loop e w a args alg :
  parse_args e w a = (w, Ok args) →
  dict_get HASH_ALGOS (n_algo args) = Some alg →
  flat_map (expand w) (n_paths args) ≠ [] →
  w_dest w !! n_output args ≠ Some Refused →
  let files := flat_map (expand w) (n_paths args) in
  let wc := add_stderr
              (map invalid_notice (List.filter (invalid w) (n_paths args))) w in
  main e w a
  = hash_all e args alg (length files) 1 files
      (open_append wc (n_output args)).1
  ∧ w_dest (open_append wc (n_output args)).1
    = match w_dest w !! n_output args with
      | None => <[n_output args := Appendable ""]> (w_dest w)
      | Some _ => w_dest w
      end
  ∧ same_fs w (open_append wc (n_output args)).1.
Proof.
  intros Hp Ha Hne Hd files wc. unfold main.
  rewrite Hp, Ha, collect_files_spec. fold files. fold wc.
  destruct files as [|f0 fs] eqn:Ef; [done|]. rewrite <- Ef.
  unfold open_append. change (w_dest wc) with (w_dest w).
  by destruct (w_dest w !! n_output args) as [[t|]|].
Qed.

Lemma console_sublist e algo alg w total files : ∀ i,
  sublist (records e algo alg w i files) (console e algo alg w total i files)
  ∧ length (console e algo alg w total i files)
    = length files + 2 * length (records e algo alg w i files).
Proof.
  induction files as [|f rest IH]; intros i; [by split|].
  destruct (IH (S i)) as [Hs Hl]. cbn [records console].
  destruct (record e algo alg w i f) as [line|].
  - change (option_list (Some line) ++ ?l) with (line :: l).
    cbn [app]. split.
    + apply sublist_cons, sublist_cons. by apply sublist_skip.
    + cbn [length]. rewrite Hl. lia.
  - change (option_list None ++ ?l) with l. cbn [app].
    split; [by apply sublist_cons|]. cbn [length]. rewrite Hl. lia.
Qed.

End Runs.









(** ** Paths read back *)
Section PathRoundTrip.

Lemma leading_relative s : is_absolute s = false → leading "/" s = 0.
Proof. destruct s as [|c s]; [done|]. cbn. by intros ->. Qed.

Lemma tidy_clean p : tidy p → clean p.
Proof.
  intros [Hr Hp]. split; [done|].
  eapply Forall_impl; [exact Hp|]. intros x [Hx Hs]. split; [|done].
  intros ->. done.
Qed.

Lemma tidy_Path_of s : tidy (Path_of s).
Proof.
  split; [apply clean_Path_of|]. cbn [Path_of p_parts].
  apply List.Forall_forall. intros x [Hin Hp]%filter_In. split; [done|].
  pose proof (split_pieces s) as Hall. rewrite List.Forall_forall in Hall.
  by apply Hall.
Qed.

Lemma tidy_child p rel :
  tidy p → Forall (fun x => valid_name x = true) rel → tidy (Path_child p rel).
Proof.
  intros [Hr Hp] Hrel. split; [done|]. cbn [Path_child p_parts].
  apply Forall_app. split; [done|].
  eapply Forall_impl; [exact Hrel|]. intros x Hx.
  by destruct (valid_name_spec x Hx) as (_ & ? & ? & _).
Qed.

(** [Path(str(p))] is [p] again. *)
Lemma Path_of_str p : tidy p → Path_of (Path_str p) = p.
Proof.
  destruct p as [root parts]. intros [Hroot Hparts]. cbn in Hroot, Hparts.
  set (j := join "/" parts).
  assert (List.filter proper_part (split "/" j) = parts
          ∧ leading "/" j = 0
          ∧ (parts ≠ [] → j ≠ "")) as (Hf & Hl & Hne).
  { subst j. destruct parts as [|x r]; [done|].
    inversion Hparts as [|? ? [Hx Hs] Hr]; subst.
    assert (x ≠ "") as Hx' by (intros ->; done).
    destruct (join_head x r Hx' Hs) as [Hj Ha].
    rewrite split_join; [|done|].
    - split; [|split; [by apply leading_relative|done]].
      apply forallb_filter_id, forallb_forall. intros y Hy.
      rewrite List.Forall_forall in Hparts. by apply Hparts.
    - eapply Forall_impl; [exact Hparts|]. by intros ? [_ ?]. }
  unfold Path_str; cbn [p_root p_parts]. fold j.
  destruct Hroot as [->|[->| ->]].
  - rewrite append_nil. destruct (String.eqb_spec j "") as [Hj|Hj].
    + destruct parts as [|x r]; [done|]. by destruct Hne.
    + unfold Path_of. by rewrite Hl, Hf.
  - change ("/" +:+ j) with (String "/" j). cbn [String.eqb].
    unfold Path_of. cbn [leading Ascii.eqb Bool.eqb]. cbn match.
    rewrite Hl, split_slash. cbn [List.filter proper_part String.eqb negb andb].
    by rewrite Hf.
  - change ("//" +:+ j) with (String "/" (String "/" j)). cbn [String.eqb].
    unfold Path_of. cbn [leading Ascii.eqb Bool.eqb]. cbn match.
    rewrite Hl, !split_slash.
    cbn [List.filter proper_part String.eqb negb andb]. by rewrite Hf.
Qed.

Lemma Path_str_child_inj p r1 r2 :
  tidy p →
  Forall (fun x => valid_name x = true) r1 →
  Forall (fun x => valid_name x = true) r2 →
  Path_str (Path_child p r1) = Path_str (Path_child p r2) → r1 = r2.
Proof.
  intros Hp H1 H2 Heq. apply (f_equal Path_of) in Heq.
  rewrite !Path_of_str in Heq by by apply tidy_child.
  injection Heq as Heq. by apply app_inv_head in Heq.
Qed.

End PathRoundTrip.

(** ** The walk lists every entry once *)
Section WalkOnce.

Lemma node_induction (P : node → Prop) :
  (∀ f, P (File f)) → P Special →
  (∀ es, Forall (fun e => P (snd e)) es → P (Dir es)) →
  ∀ n, P n.
Proof.
  intros Hf Hs Hd. fix IH 1. intros [f|es|]; [apply Hf| |apply Hs].
  apply Hd. induction es as [|[x c] es IHes]; constructor; [apply IH|apply IHes].
Qed.

Lemma distinct_NoDup l : distinct l = true → NoDup l.
Proof.
  induction l as [|x l IH]; [constructor|]. cbn [distinct].
  intros [Hx Hl]%andb_true_iff. apply NoDup_cons_2; [|by apply IH].
  rewrite list_elem_of_In, <- member_In. by apply negb_true_iff in Hx as ->.
Qed.

Lemma NoDup_map_on {A B} (f : A → B) l :
  (∀ x y, In x l → In y l → f x = f y → x = y) →
  NoDup l → NoDup (map f l).
Proof.
  intros Hinj. induction 1 as [|x l Hx Hl IH]; [constructor|].
  cbn [map]. apply NoDup_cons_2.
  - rewrite list_elem_of_In, in_map_iff. intros (y & Hy & Hin).
    apply Hx, list_elem_of_In.
    rewrite (Hinj x y); [done|by left|by right|done].
  - apply IH. intros y z Hy Hz. apply Hinj; by right.
Qed.

Lemma NoDup_filter_list {A} (P : A → bool) l :
  NoDup l → NoDup (List.filter P l).
Proof.
  induction 1 as [|x l Hx Hl IH]; [constructor|]. cbn [List.filter].
  destruct (P x); [|done]. apply NoDup_cons_2; [|done].
  rewrite list_elem_of_In, filter_In. intros [Hin _].
  by apply Hx, list_elem_of_In.
Qed.

Lemma rglob_rel_cons n rel : In rel (rglob_rel n) → rel ≠ [].
Proof.
  destruct n as [f|es|]; [done| |done].
  by intros (x & c & _ & [->|(r & -> & _)])%rglob_rel_In.
Qed.

(** Below a well-formed directory no relative path is yielded twice. *)
Lemma rglob_rel_NoDup n : wf_node n = true → NoDup (rglob_rel n).
Proof.
  induction n as [f| |es IH] using node_induction; [constructor..|].
  intros Hwf. cbn [rglob_rel]. apply NoDup_app. split; [|split].
  - rewrite <- (map_map fst (fun x => [x])).
    apply NoDup_map_on; [by intros x y _ _ [= ->]|].
    by apply distinct_NoDup, wf_distinct.
  - intros rel [[x c] [<- _]]%list_elem_of_In%in_map_iff.
    rewrite list_elem_of_In, in_flat_map.
    intros ([y d] & _ & (r & [= _ ->] & Hr%rglob_rel_cons)%in_map_iff). done.
  - pose proof (wf_distinct _ Hwf) as Hd.
    assert (∀ x c, In (x, c) es → wf_node c = true) as Hc
      by (intros x c Hin; by destruct (wf_entry _ _ _ Hwf Hin)).
    clear Hwf. induction es as [|[x c] es IHes]; [constructor|].
    inversion_clear IH as [|? ? IHc IHrest]. cbn [flat_map].
    cbn [map fst distinct] in Hd. apply andb_true_iff in Hd as [Hx Hd].
    apply NoDup_app. split; [|split].
    + apply NoDup_map_on; [by intros ? ? _ _ [= ->]|].
      apply IHc, (Hc x c). by left.
    + intros rel (r & <- & _)%list_elem_of_In%in_map_iff.
      rewrite list_elem_of_In, in_flat_map.
      intros ([y d] & Hin & (r' & [= -> _] & _)%in_map_iff).
      apply negb_true_iff in Hx.
      assert (member x (map fst es) = true) as Hm; [|congruence].
      apply member_In, in_map_iff. by exists (x, d).
    + apply IHes; [done..|]. intros y d Hin. apply (Hc y d). by right.
Qed.

Lemma flat_map_fixed (f : string → list string) l :
  (∀ x, In x l → f x = [x]) → flat_map f l = l.
Proof.
  induction l as [|x l IH]; intros H; [done|]. cbn [flat_map].
  rewrite (H x) by by left. rewrite IH; [done|]. intros; apply H. by right.
Qed.

Lemma filter_none {A} (P : A → bool) l :
  (∀ x, In x l → P x = false) → List.filter P l = [].
Proof.
  induction l as [|x l IH]; intros H; [done|]. cbn [List.filter].
  rewrite (H x) by by left. apply IH. intros; apply H. by right.
Qed.

(** Every path [collect_files] lists is the string of a tidy path that
    names a regular file. *)
Lemma listed_tidy w path s :
  wf_node (w_root w) = true → In s (expand w path) →
  ∃ q, tidy q ∧ s = Path_str q ∧ is_file w q = true.
Proof.
  intros Hwf. unfold expand.
  destruct (is_dir w (Path_of path)) eqn:Hd.
  - intros (q & <- & [Hin Hf]%filter_In)%in_map_iff.
    exists q. split; [|done]. unfold rglob, os_stat in Hin.
    destruct (os_resolve w (Path_str (Path_of path))) as [[st n]|] eqn:Er;
      [|done].
    cbn in Hin. apply in_map_iff in Hin as (rel & <- & Hrel).
    pose proof (os_resolve_wf _ _ _ _ Hwf Er) as Hn.
    apply (rglob_rel_iff rel n Hn) in Hrel as [_ Hs].
    apply tidy_child; [apply tidy_Path_of|]. by apply (node_at_valid rel n).
  - destruct (is_file w (Path_of path)) eqn:Hf; [|done].
    intros [<-|[]]. exists (Path_of path). split; [apply tidy_Path_of|done].
Qed.

Lemma expand_listed w path s :
  wf_node (w_root w) = true → In s (expand w path) →
  expand w s = [s] ∧ invalid w s = false.
Proof.
  intros Hwf Hin. destruct (listed_tidy w path s Hwf Hin) as (q & Hq & -> & Hf).
  unfold expand, invalid. rewrite (Path_of_str q Hq).
  by rewrite (is_file_not_dir _ _ Hf), Hf.
Qed.

End WalkOnce.

(** X7: in a well-formed tree, a directory given as input contributes
    each regular file below it once: the paths listed for it are pairwise
    different. *)
Theorem directory_listed_once (w : world) (path : string)
    (st : list (string * node)) (es : list (string * node)) :
  wf_node (w_root w) = true →
  os_resolve w (Path_str (Path_of path)) = Some (st, Dir es) →
  NoDup (collect_files w [path]).2.
Proof.
  intros Hwf Hres. rewrite collect_files_spec. cbn [snd flat_map].
  rewrite app_nil_r, (expand_dir w path st es Hwf Hres).
  pose proof (os_resolve_wf _ _ _ _ Hwf Hres) as Hd.
  apply NoDup_map_on.
  - intros r1 r2 [Hr1 _]%filter_In [Hr2 _]%filter_In.
    apply (rglob_rel_iff r1 _ Hd) in Hr1 as [_ H1].
    apply (rglob_rel_iff r2 _ Hd) in Hr2 as [_ H2].
    apply Path_str_child_inj; [apply tidy_Path_of|..];
      by apply (node_at_valid _ (Dir es)).
  - apply NoDup_filter_list. by apply rglob_rel_NoDup.
Qed.

Lemma directory_listed_once_witness :
  wf_node (w_root Sample.machine) = true
  ∧ NoDup (collect_files Sample.machine ["/home//u/"]).2.
Proof.
  split; [reflexivity|].
  destruct (os_resolve Sample.machine (Path_str (Path_of "/home//u/")))
    as [[st [f|es|]]|] eqn:E; try discriminate E.
  exact (directory_listed_once Sample.machine "/home//u/" st es eq_refl E).
Defined.

(** X8: in a well-formed tree the list [collect_files] returns is a fixed
    point: given back as input it is returned unchanged, with no notice
    and no other effect. *)
Theorem collect_files_fixed_point (w : world) (paths : list string) :
  wf_node (w_root w) = true →
  collect_files w (collect_files w paths).2 = (w, (collect_files w paths).2).
Proof.
  intros Hwf. rewrite (collect_files_spec w paths). cbn [snd].
  rewrite collect_files_spec.
  assert (∀ s, In s (flat_map (expand w) paths) →
               expand w s = [s] ∧ invalid w s = false) as Hs.
  { intros s (path & _ & Hin)%in_flat_map. by apply (expand_listed w path). }
  rewrite (flat_map_fixed (expand w) (flat_map (expand w) paths))
    by (intros s Hin; by destruct (Hs s Hin)).
  rewrite (filter_none (invalid w) (flat_map (expand w) paths))
    by (intros s Hin; by destruct (Hs s Hin)).
  by rewrite add_stderr_nil.
Qed.

Lemma collect_files_fixed_point_witness :
  wf_node (w_root Sample.machine) = true
  ∧ collect_files Sample.machine
      (collect_files Sample.machine ["./a.txt"; "d//"; "nope"; ".."]).2
    = (Sample.machine,
       (collect_files Sample.machine ["./a.txt"; "d//"; "nope"; ".."]).2).
Proof.
  split; [reflexivity|].
  apply (collect_files_fixed_point Sample.machine). reflexivity.
Defined.

(** X9: what is collected is what is hashed.  In a well-formed tree, the
    path listed for a regular file found below a directory input names
    that very file: [hash_file] on it returns the digest of that file's
    bytes when the file can be opened and read to its end, and [None]
    otherwise. *)
Theorem listed_path_hashes_its_file (w : world) (d : string)
    (st es : list (string * node)) (rel : list string) (f : file)
    (alg : Digest.algorithm) :
  wf_node (w_root w) = true →
  os_resolve w (Path_str (Path_of d)) = Some (st, Dir es) →
  node_at (Dir es) rel = Some (File f) →
  let s := Path_str (Path_child (Path_of d) rel) in
  In s (collect_files w [d]).2
  ∧ os_stat w s = Some (File f)
  ∧ (hash_file w s alg).2
    = Ok (if f_perm f && fault_free f
          then Some (Digest.hash_bytes alg (f_data f)) else None).
Proof.
  intros Hwf Hres Hnode s.
  pose proof (os_resolve_wf _ _ _ _ Hwf Hres) as Hd.
  assert (is_Some (node_at (Dir es) rel)) as Hs by (rewrite Hnode; eauto).
  pose proof (node_at_valid _ _ Hd Hs) as Hv.
  assert (os_stat w s = Some (File f)) as Hstat.
  { unfold os_stat. subst s.
    rewrite (resolve_child w _ rel st (Dir es) (clean_Path_of d) Hv Hres).
    destruct (walk_descend rel st (Dir es) Hv) as [-> _]. done. }
  split; [|split; [done|]].
  - rewrite collect_files_spec. cbn [snd flat_map]. rewrite app_nil_r.
    apply (expand_dir_In w d st es); eauto.
  - rewrite hash_file_spec. unfold contents. rewrite Hstat.
    by destruct (f_perm f && fault_free f).
Qed.

Lemma listed_path_hashes_its_file_witness :
  In "d/e/c.txt" (collect_files Sample.machine ["d"]).2
  ∧ os_stat Sample.machine "d/e/c.txt" = Some Sample.locked_file
  ∧ (hash_file Sample.machine "d/e/c.txt" Digest.Md5.alg).2 = Ok None.
Proof.
  destruct (os_resolve Sample.machine (Path_str (Path_of "d")))
    as [[st [f|es|]]|] eqn:E; try discriminate E.
  injection E as <- <-.
  exact (listed_path_hashes_its_file Sample.machine "d" _ _ ["e"; "c.txt"]
           {| f_data := list_byte_of_string "xyz"; f_perm := false;
              f_bad := None |} Digest.Md5.alg eq_refl eq_refl eq_refl).
Defined.

(** X10: collecting a list of inputs in two calls, the second on the
    world the first leaves, gives the same list and the same notices as
    collecting it in one call. *)
Theorem collect_files_app (w : world) (xs ys : list string) :
  collect_files w (xs ++ ys)
  = ((collect_files (collect_files w xs).1 ys).1,
     (collect_files w xs).2 ++ (collect_files (collect_files w xs).1 ys).2).
Proof.
  rewrite !collect_files_spec. cbn [fst snd].
  set (w1 := add_stderr (map invalid_notice (List.filter (invalid w) xs)) w).
  assert (same_fs w w1) as Hfs by done.
  rewrite List.filter_app, map_app, flat_map_app, <- add_stderr_add. fold w1.
  assert (List.filter (invalid w1) ys = List.filter (invalid w) ys) as ->.
  { apply filter_ext. intros p. unfold invalid.
    by rewrite (is_dir_same w w1), (is_file_same w w1). }
  assert (flat_map (expand w1) ys = flat_map (expand w) ys) as ->.
  { apply flat_map_ext. intros p. symmetry. by apply expand_same. }
  done.
Qed.



Lemma notices_length w files :
  length (notices w files)
  = length (List.filter (fun f => negb (readable w f)) files).
Proof.
  induction files as [|f rest IH]; [done|].
  cbn [notices List.filter]. rewrite length_app, IH. unfold readable.
  by destruct (contents w f).
Qed.



(** X13: [hash_file] calls [open] once, on the path it is given, prints
    nothing on standard output, writes to no log and leaves the tree
    alone; it sends a notice to the error stream exactly when it returns
    [None]. *)
Theorem hash_file_frame (w : world) (path : string) (alg : Digest.algorithm) :
  same_fs w (hash_file w path alg).1
  ∧ w_dest (hash_file w path alg).1 = w_dest w
  ∧ w_stdout (hash_file w path alg).1 = w_stdout w
  ∧ w_opens (hash_file w path alg).1 = w_opens w ++ [path]
  ∧ ((hash_file w path alg).2 = Ok None
     ↔ w_stderr (hash_file w path alg).1 ≠ w_stderr w).
Proof.
  rewrite hash_file_spec. destruct (contents w path); cbn.
  - repeat split; try done.
  - repeat split; try done. intros _ H.
    apply (f_equal length) in H. rewrite length_app in H. cbn in H. lia.
Qed.

Lemma update_fold (chunks : list (list byte)) : ∀ h,
  Digest.short h →
  fold_left Digest.update chunks h = Digest.update h (mjoin chunks).
Proof.
  induction chunks as [|c cs IH]; intros h Hs.
  - cbn. by rewrite DigestFacts.update_nil.
  - cbn [fold_left]. rewrite IH by apply DigestFacts.short_update.
    by rewrite DigestFacts.update_app.
Qed.

(** X14: feeding a fresh digest object a sequence of chunks, as the loop
    of [hash_file] does, leaves it as feeding it their concatenation in
    one call: the digest does not depend on where the reads cut the file,
    nor on empty chunks among them. *)
Theorem update_chunks (alg : Digest.algorithm) (chunks : list (list byte)) :
  fold_left Digest.update chunks (Digest.new alg)
  = Digest.update (Digest.new alg) (mjoin chunks)
  ∧ Digest.hexdigest (fold_left Digest.update chunks (Digest.new alg))
    = Digest.hash_bytes alg (mjoin chunks).
Proof.
  rewrite update_fold by apply DigestFacts.short_new. by split.
Qed.

Section Strip.

Lemma lstrip_first s c : first_char (lstrip s) = Some c → is_space c = false.
Proof.
  induction s as [|d s IH]; [done|]. cbn [lstrip].
  destruct (is_space d) eqn:E; [done|]. by intros [= <-].
Qed.

Lemma lstrip_fixed s :
  (∀ c, first_char s = Some c → is_space c = false) → lstrip s = s.
Proof.
  destruct s as [|d s]; [done|]. intros H. cbn [lstrip].
  by rewrite (H d eq_refl).
Qed.

Lemma rstrip_last s c : last_char (rstrip s) = Some c → is_space c = false.
Proof.
  induction s as [|d s IH]; [done|]. cbn [rstrip].
  destruct (rstrip s) as [|d' r] eqn:E.
  - destruct (is_space d) eqn:Ed; [done|]. by intros [= <-].
  - done.
Qed.

Lemma rstrip_first s c :
  first_char s = Some c → is_space c = false → first_char (rstrip s) = Some c.
Proof.
  destruct s as [|d s]; [done|]. intros [= ->] Hc. cbn [rstrip].
  destruct (rstrip s); [by rewrite Hc|done].
Qed.

Lemma rstrip_idem s : rstrip (rstrip s) = rstrip s.
Proof.
  induction s as [|d s IH]; [done|]. cbn [rstrip].
  destruct (rstrip s) as [|d' r] eqn:E.
  - destruct (is_space d) eqn:Ed; [done|]. cbn [rstrip]. by rewrite Ed.
  - cbn [rstrip] in *. by rewrite IH.
Qed.

Lemma rstrip_space_end s d :
  is_space d = true → rstrip (s +:+ String d EmptyString) = rstrip s.
Proof.
  intros Hd. induction s as [|c s IH].
  - rewrite append_nil. cbn [rstrip]. by rewrite Hd.
  - rewrite append_cons. cbn [rstrip]. by rewrite IH.
Qed.

End Strip.


